(** * Side-stacker: the shared game model and the server's session reducer

    A shallow embedding of [shared/src/codecs.ts] (pieces, rows, the board,
    the rendered grid, the win detector and [advance]), of the shared API
    helpers ([parseJson], [decode], [showApiError]) and of
    [server/src/state.ts] (the [update] reducer with its effects as data),
    followed by the properties proved about them. *)

From Stdlib Require Import String Ascii.
From Stdlib Require Import List ZArith Bool Lia.
Import ListNotations.

Set Implicit Arguments.

(** ** The fp-ts combinators the sources use *)

Module FpTs.

(** [Either<E, A>] is [E + A]: [left] is [inl], [right] is [inr]. *)
Definition Either (E A : Type) : Type := (E + A)%type.

Definition either_map {E A B} (f : A -> B) (fa : Either E A) : Either E B :=
  match fa with
  | inl e => inl e
  | inr a => inr (f a)
  end.

Definition either_mapLeft {E G A} (f : E -> G) (fa : Either E A) : Either G A :=
  match fa with
  | inl e => inl (f e)
  | inr a => inr a
  end.

Definition either_bimap {E G A B} (f : E -> G) (g : A -> B)
    (fa : Either E A) : Either G B :=
  match fa with
  | inl e => inl (f e)
  | inr a => inr (g a)
  end.

Definition either_chain {E A B} (f : A -> Either E B) (ma : Either E A) : Either E B :=
  match ma with
  | inl e => inl e
  | inr a => f a
  end.

Definition either_fold {E A B} (onLeft : E -> B) (onRight : A -> B)
    (ma : Either E A) : B :=
  match ma with
  | inl e => onLeft e
  | inr a => onRight a
  end.

(** [Option<A>] is [option A]. *)
Definition option_chain {A B} (f : A -> option B) (ma : option A) : option B :=
  match ma with
  | Some a => f a
  | None => None
  end.

Definition option_filter {A} (predicate : A -> bool) (fa : option A) : option A :=
  match fa with
  | Some a => if predicate a then Some a else None
  | None => None
  end.

Definition option_isSome {A} (fa : option A) : bool :=
  match fa with
  | Some _ => true
  | None => false
  end.

(** [array.lookup(i)(as)]: out of bounds ([i < 0] or [i >= as.length])
    gives [none]. Indices are JavaScript numbers, integers here. *)
Definition lookup {A} (i : Z) (xs : list A) : option A :=
  if ((i <? 0) || (Z.of_nat (length xs) <=? i))%Z then None
  else nth_error xs (Z.to_nat i).

(** [array.replicate(n, a)]: empty for [n <= 0]. The one caller passes
    a difference of lengths, a natural number cut off at zero. *)
Definition replicate {A} (n : nat) (a : A) : list A := repeat a n.

(** [nonEmptyArray.range(start, end)]: [start, ..., end], or [[start]]
    when [end < start]. *)
Definition range (start stop : Z) : list Z :=
  if (start <=? stop)%Z
  then map (fun k => (start + Z.of_nat k)%Z) (seq 0 (Z.to_nat (stop - start + 1)))
  else [start].

(** [array.comprehension([is, js], f)]: the outer array varies slowest. *)
Definition comprehension {A B C} (xs : list A) (ys : list B) (f : A -> B -> C) : list C :=
  flat_map (fun a => map (f a) ys) xs.

Fixpoint filterMap {A B} (f : A -> option B) (xs : list A) : list B :=
  match xs with
  | [] => []
  | a :: rest =>
      match f a with
      | Some b => b :: filterMap f rest
      | None => filterMap f rest
      end
  end.

End FpTs.
Import FpTs.

(** ** Recursion with a budget

    [chainPieces] recurses on a condition of its arguments, not on their
    structure; its embedding takes a budget of calls, and [OutOfFuel] is the
    answer of a run that would need more. *)

Inductive Budget (A : Type) : Type :=
| OutOfFuel : Budget A
| Done : A -> Budget A.
Arguments OutOfFuel {A}.
Arguments Done {A} _.

(** [array.findFirstMap(f)] over a callback that runs on a budget: the
    elements are tried in order, and the first [some] ends the search. *)
Fixpoint findFirstMap {A B} (f : A -> Budget (option B)) (xs : list A) : Budget (option B) :=
  match xs with
  | [] => Done None
  | a :: rest =>
      match f a with
      | OutOfFuel => OutOfFuel
      | Done (Some b) => Done (Some b)
      | Done None => findFirstMap f rest
      end
  end.

(** [l || r] where both sides run on a budget; [r] runs only if [l] is false. *)
Definition orElse (l : Budget bool) (r : Budget bool) : Budget bool :=
  match l with
  | OutOfFuel => OutOfFuel
  | Done true => Done true
  | Done false => r
  end.

Definition budget_map {A B} (f : A -> B) (r : Budget A) : Budget B :=
  match r with
  | OutOfFuel => OutOfFuel
  | Done a => Done (f a)
  end.

(** ** Pieces, rows, the board *)

Inductive Piece : Type := X | O.

Definition piece_eqb (p q : Piece) : bool :=
  match p, q with
  | X, X | O, O => true
  | _, _ => false
  end.

Definition nextPiece (piece : Piece) : Piece :=
  match piece with
  | X => O
  | O => X
  end.

Record Row : Type := mkRow { left : list Piece; right : list Piece }.

(** [RowSide = keyof Row] *)
Inductive RowSide : Type := SideLeft | SideRight.

Definition MaxRowPieces : nat := 7.

Inductive RowFullError : Type := mkRowFullError.

Definition numPieces (row : Row) : nat :=
  length (left row) + length (right row).

Definition addPiece (piece : Piece) (side : RowSide) (row : Row) : Either RowFullError Row :=
  match side with
  | SideLeft =>
      if numPieces row <? MaxRowPieces
      then inr {| left := piece :: left row; right := right row |}
      else inl mkRowFullError
  | SideRight =>
      if numPieces row <? MaxRowPieces
      then inr {| left := left row; right := right row ++ [piece] |}
      else inl mkRowFullError
  end.

Record Board : Type := mkBoard {
  row1 : Row; row2 : Row; row3 : Row; row4 : Row;
  row5 : Row; row6 : Row; row7 : Row
}.

(** [RowIndex = keyof Board] *)
Inductive RowIndex : Type := Row1 | Row2 | Row3 | Row4 | Row5 | Row6 | Row7.

Definition rowIndexes : list RowIndex := [Row1; Row2; Row3; Row4; Row5; Row6; Row7].

(** [board[rowIndex]] *)
Definition getRow (board : Board) (rowIndex : RowIndex) : Row :=
  match rowIndex with
  | Row1 => row1 board | Row2 => row2 board | Row3 => row3 board
  | Row4 => row4 board | Row5 => row5 board | Row6 => row6 board
  | Row7 => row7 board
  end.

(** [{ ...board, [rowIndex]: newRow }] *)
Definition setRow (board : Board) (rowIndex : RowIndex) (newRow : Row) : Board :=
  match rowIndex with
  | Row1 => mkBoard newRow (row2 board) (row3 board) (row4 board) (row5 board) (row6 board) (row7 board)
  | Row2 => mkBoard (row1 board) newRow (row3 board) (row4 board) (row5 board) (row6 board) (row7 board)
  | Row3 => mkBoard (row1 board) (row2 board) newRow (row4 board) (row5 board) (row6 board) (row7 board)
  | Row4 => mkBoard (row1 board) (row2 board) (row3 board) newRow (row5 board) (row6 board) (row7 board)
  | Row5 => mkBoard (row1 board) (row2 board) (row3 board) (row4 board) newRow (row6 board) (row7 board)
  | Row6 => mkBoard (row1 board) (row2 board) (row3 board) (row4 board) (row5 board) newRow (row7 board)
  | Row7 => mkBoard (row1 board) (row2 board) (row3 board) (row4 board) (row5 board) (row6 board) newRow
  end.

(** ** The rendered grid *)

Definition Grid : Type := list (list (option Piece)).

Definition toGridRow (row : Row) : list (option Piece) :=
  map Some (left row)
  ++ replicate (MaxRowPieces - numPieces row) None
  ++ map Some (right row).

Definition toGrid (board : Board) : Grid :=
  map (fun rowIndex => toGridRow (getRow board rowIndex)) rowIndexes.

(** ** The win detector *)

Record Coord : Type := mkCoord { ci : Z; cj : Z }.

Record CoordMove : Type := mkCoordMove { movei : Z -> Z; movej : Z -> Z }.

Section ConnectedFour.

Variable allRows : Grid.

(** The piece at a coordinate: the row exists, the column exists, and a
    piece is present. *)
Definition pieceAt (coord : Coord) : option Piece :=
  option_chain (fun cell : option Piece => cell)
    (option_chain (lookup (cj coord)) (lookup (ci coord) allRows)).

Fixpoint chainPieces (fuel : nat) (move : CoordMove) (coord : Coord) (piece : Piece)
    (chained : list Coord) : Budget (option (list Coord)) :=
  match fuel with
  | 0%nat => OutOfFuel
  | S fuel' =>
      let nextCoord := {| ci := movei move (ci coord); cj := movej move (cj coord) |} in
      if (length chained =? 4)%nat then Done (Some chained)
      else
        match option_filter (fun p => piece_eqb p piece) (pieceAt nextCoord) with
        | Some _ => chainPieces fuel' move nextCoord piece (chained ++ [nextCoord])
        | None => Done None
        end
  end.

Definition checkDirection (fuel : nat) (move : CoordMove) (is_ js_ : list Z)
    : Budget (option (list Coord)) :=
  findFirstMap
    (fun cp : Coord * Piece => chainPieces fuel move (fst cp) (snd cp) [fst cp])
    (filterMap
       (fun coord => option_map (fun p => (coord, p)) (pieceAt coord))
       (comprehension is_ js_ (fun i j => {| ci := i; cj := j |}))).

Definition checkRows (fuel : nat) :=
  checkDirection fuel
    {| movei := fun i => i; movej := fun j => (j + 1)%Z |}
    (range 0 6) (range 0 3).

Definition checkColumns (fuel : nat) :=
  checkDirection fuel
    {| movei := fun i => (i + 1)%Z; movej := fun j => j |}
    (range 0 3) (range 0 6).

Definition checkRightDiagonal (fuel : nat) :=
  checkDirection fuel
    {| movei := fun i => (i + 1)%Z; movej := fun j => (j + 1)%Z |}
    (range 0 3) (range 0 3).

Definition checkLeftDiagonal (fuel : nat) :=
  checkDirection fuel
    {| movei := fun i => (i + 1)%Z; movej := fun j => (j - 1)%Z |}
    (range 0 3) (range 3 6).

Definition connectedFourGrid (fuel : nat) : Budget bool :=
  orElse (budget_map option_isSome (checkRows fuel))
    (orElse (budget_map option_isSome (checkColumns fuel))
       (orElse (budget_map option_isSome (checkRightDiagonal fuel))
          (budget_map option_isSome (checkLeftDiagonal fuel)))).

End ConnectedFour.

(** Every chain starts from one coordinate and stops at four: four calls. *)
Definition chainFuel : nat := 4.

Definition connectedFourFuel (fuel : nat) (board : Board) : Budget bool :=
  connectedFourGrid (toGrid board) fuel.

Definition connectedFour (board : Board) : bool :=
  match connectedFourFuel chainFuel board with
  | Done b => b
  | OutOfFuel => false
  end.

(** ** The game engine *)

Record Move : Type := mkMove { row : RowIndex; side : RowSide }.

Inductive Game : Type :=
| Playing (board : Board) (playingPiece : Piece)
| Over (board : Board) (winner : Piece).

(** [AdvanceError = RowFullError | GameOverError | IncorrectPieceError] *)
Inductive AdvanceError : Type :=
| RowFull (e : RowFullError)
| GameOverError
| IncorrectPieceError (expected actual : Piece).

(** The source maps over the right side only ([either.map]); [RowFull] is
    the inclusion of [RowFullError] in the union [AdvanceError]. *)
Definition advance (game : Game) (piece : Piece) (move : Move) : Either AdvanceError Game :=
  match game with
  | Playing board playingPiece =>
      if piece_eqb piece playingPiece
      then
        either_bimap RowFull
          (fun newRow =>
             let newBoard := setRow board (row move) newRow in
             if connectedFour newBoard
             then Over newBoard playingPiece
             else Playing newBoard (nextPiece playingPiece))
          (addPiece playingPiece (side move) (getRow board (row move)))
      else inl (IncorrectPieceError playingPiece piece)
  | Over _ _ => inl GameOverError
  end.

Definition emptyRow : Row := {| left := []; right := [] |}.

Definition initGame : Game :=
  Playing (mkBoard emptyRow emptyRow emptyRow emptyRow emptyRow emptyRow emptyRow) X.

(** [Message], the server-to-client wire messages. *)
Inductive Message : Type :=
| Error (message : string)
| Connected (piece : Piece)
| OpponentLeft
| GameUpdate (game : Game).

Definition showPiece (piece : Piece) : string :=
  match piece with
  | X => "X"
  | O => "O"
  end.

(** The keys of the [board] and [row] objects, which [keyof] accepts. *)
Definition showRowIndex (rowIndex : RowIndex) : string :=
  match rowIndex with
  | Row1 => "row1" | Row2 => "row2" | Row3 => "row3" | Row4 => "row4"
  | Row5 => "row5" | Row6 => "row6" | Row7 => "row7"
  end.

Definition showRowSide (sd : RowSide) : string :=
  match sd with
  | SideLeft => "left"
  | SideRight => "right"
  end.

Definition showAdvanceError (error : AdvanceError) : string :=
  match error with
  | RowFull _ => "Row is full"
  | GameOverError => "Game is over"
  | IncorrectPieceError expected actual =>
      "Incorrect piece. Expected " ++ showPiece expected ++ ", got " ++ showPiece actual ++ " "
  end%string.

(** ** Decoding wire payloads

    What [JSON.parse] returns, as far as the codecs below tell values apart:
    a string, a plain object, or anything else (null, a boolean, a number,
    an array), which every codec here rejects. *)

Inductive Json : Type :=
| JString (s : string)
| JObject (fields : list (string * Json))
| JOther.

(** [a[k]] on a parsed object: [None] is [undefined]. *)
Fixpoint getField (k : string) (fields : list (string * Json)) : option Json :=
  match fields with
  | [] => None
  | (k', v) :: rest => if String.eqb k k' then Some v else getField k rest
  end.

(** One io-ts validation error: the rejected value ([None] is [undefined])
    and the path of keys that leads to it. *)
Record ValidationError : Type := mkValidationError {
  value : option Json;
  context : list string
}.

Definition Errors : Type := list ValidationError.

Definition Decoder (A : Type) : Type := option Json -> list string -> Either Errors A.

(** [t.keyof], and [t.literal] as the case of one name: the input is a
    string and one of the listed names. *)
Definition literals {A} (names : list (string * A)) : Decoder A :=
  fun u c =>
    match u with
    | Some (JString s) =>
        match find (fun na => String.eqb s (fst na)) names with
        | Some na => inr (snd na)
        | None => inl [mkValidationError u c]
        end
    | _ => inl [mkValidationError u c]
    end.

(** [pieceCodec = t.union([t.literal(X), t.literal(O)])]: the members are
    tried in order, each under its index as context key, and a refusal
    carries the errors of both. *)
Definition pieceCodec : Decoder Piece :=
  fun u c =>
    match literals [(showPiece X, X)] u (c ++ ["0"%string]) with
    | inr piece => inr piece
    | inl e0 =>
        match literals [(showPiece O, O)] u (c ++ ["1"%string]) with
        | inr piece => inr piece
        | inl e1 => inl (e0 ++ e1)
        end
    end.

Definition rowSideCodec : Decoder RowSide :=
  literals (map (fun sd => (showRowSide sd, sd)) [SideLeft; SideRight]).

Definition rowIndexCodec : Decoder RowIndex :=
  literals (map (fun rowIndex => (showRowIndex rowIndex, rowIndex)) rowIndexes).

(** [t.type({ row: rowIndexCodec, side: rowSideCodec })]: the input is an
    object, every property is validated, and the errors of all of them are
    collected. *)
Definition moveCodec : Decoder Move :=
  fun u c =>
    match u with
    | Some (JObject fields) =>
        match rowIndexCodec (getField "row" fields) (c ++ ["row"%string]),
              rowSideCodec (getField "side" fields) (c ++ ["side"%string]) with
        | inr r, inr s => inr (mkMove r s)
        | inl e1, inr _ => inl e1
        | inr _, inl e2 => inl e2
        | inl e1, inl e2 => inl (e1 ++ e2)
        end
    | _ => inl [mkValidationError u c]
    end.

Inductive ApiError : Type :=
| JsonParseError (parseError : string)
| DecodeError (decodeError : Errors).

(** [codec.decode(u)] validates at the root context. *)
Definition decode {A} (codec : Decoder A) (u : Json) : Either ApiError A :=
  either_mapLeft DecodeError (codec (Some u) [""%string]).

Definition dquote : string := String (ascii_of_nat 34) EmptyString.

(** ** The session reducer *)

Section Server.

(** Handles of the runtime: sockets, the database, raw socket data. *)
Variables WebSocket Database RawData : Type.
(** [data.toString(utf8)] *)
Variable toString : RawData -> string.
(** [JSON.parse]; [None] when it throws. *)
Variable JSON_parse : string -> option Json.
(** io-ts's PathReporter, as interpolated into a string. *)
Variable failure : Errors -> string.

Definition showApiError (err : ApiError) : string :=
  match err with
  | JsonParseError parseError => "JsonParseError: " ++ dquote ++ parseError ++ dquote
  | DecodeError decodeError => "DecodeError: " ++ dquote ++ failure decodeError ++ dquote
  end%string.

Definition parseJson (text : string) : Either ApiError Json :=
  match JSON_parse text with
  | Some u => inr u
  | None => inl (JsonParseError "JSON parse failed")
  end.

Inductive State : Type :=
| Empty (db : Database)
| WaitingForOpponent (playerX : WebSocket) (db : Database)
| Ready (playerX playerO : WebSocket) (db : Database)
| Started (playerX playerO : WebSocket) (game : Game) (gameId : Z) (db : Database).

(** [state.db] *)
Definition db (state : State) : Database :=
  match state with
  | Empty d => d
  | WaitingForOpponent _ d => d
  | Ready _ _ d => d
  | Started _ _ _ _ d => d
  end.

Inductive Action : Type :=
| PlayerJoined (player : WebSocket)
| PlayerLeft (playerPiece : Piece)
| GameStarted (game : Game) (gameId : Z)
| MessageReceived (playerPiece : Piece) (data : RawData).

(** The effects [update] returns, as the calls that build them. *)
Inductive Effect : Type :=
| logError (error : string)
| logDebug (message : string)
| send (message : Message) (ws : WebSocket)
| broadcast (message : Message)
| subscribe (playerPiece : Piece) (ws : WebSocket)
| startGame
| saveMove (gameId : Z) (move : Move) (piece : Piece).

Definition join (ws : WebSocket) (state : State) : Either string (State * list Effect) :=
  match state with
  | Empty d =>
      inr (WaitingForOpponent ws d,
           [send (Connected X) ws;
            logDebug "First player joined. Waiting for the second player..."])
  | WaitingForOpponent playerX d =>
      inr (Ready playerX ws d,
           [send (Connected O) ws;
            startGame;
            logDebug "Second player joined. Starting game..."])
  | Ready _ _ _ | Started _ _ _ _ _ => inl "Game already started"%string
  end.

Definition move (playerPiece : Piece) (state : State) (mv : Move)
    : Either string (State * list Effect) :=
  match state with
  | Empty _ => inl "No players connected"%string
  | WaitingForOpponent _ _ => inl "Waiting for opponent"%string
  | Ready _ _ _ => inl "Game not started yet"%string
  | Started playerX playerO game gameId d =>
      either_bimap showAdvanceError
        (fun g =>
           (Started playerX playerO g gameId d,
            [saveMove gameId mv playerPiece; broadcast (GameUpdate g)]))
        (advance game playerPiece mv)
  end.

Definition update (action : Action) (state : State) : State * list Effect :=
  match action with
  | PlayerJoined player =>
      either_fold (fun e => (state, [logError e])) (fun r => r) (join player state)
  | PlayerLeft playerPiece =>
      match state with
      | Started playerX playerO _ _ d =>
          (Empty d,
           [logDebug ("Player " ++ showPiece playerPiece ++ " left the game")%string;
            send OpponentLeft (if piece_eqb playerPiece X then playerO else playerX)])
      | _ => (Empty (db state), [])
      end
  | GameStarted game gameId =>
      match state with
      | Ready playerX playerO d =>
          (Started playerX playerO game gameId d,
           [subscribe X playerX; subscribe O playerO; broadcast (GameUpdate game)])
      | _ => (state, [logError "Game is not ready to be started"])
      end
  | MessageReceived playerPiece data =>
      either_fold (fun e => (state, [logError e])) (fun r => r)
        (either_chain (move playerPiece state)
           (either_mapLeft showApiError
              (either_chain (decode moveCodec) (parseJson (toString data)))))
  end.

(** What running one effect against a state writes to the sockets:
    [send] writes to its socket when it is open, [broadcast] to the players
    of a [WaitingForOpponent] or [Started] state that are open; the other
    effects write to no socket. *)
Variable isOpen : WebSocket -> bool.

Definition sendIfOpen (ws : WebSocket) (message : Message) : list (WebSocket * Message) :=
  if isOpen ws then [(ws, message)] else [].

Definition sent (effect : Effect) (state : State) : list (WebSocket * Message) :=
  match effect with
  | send message ws => sendIfOpen ws message
  | broadcast message =>
      match state with
      | Empty _ => []
      | WaitingForOpponent playerX _ => sendIfOpen playerX message
      | Started playerX playerO _ _ _ =>
          sendIfOpen playerX message ++ sendIfOpen playerO message
      | Ready _ _ _ => []
      end
  | _ => []
  end.

(** [dispatch]: the state is replaced, then every effect runs against the
    new state, in order. *)
Definition dispatchSent (action : Action) (state : State) : list (WebSocket * Message) :=
  let '(nextState, effects) := update action state in
  flat_map (fun effect => sent effect nextState) effects.

(** The actions [update] rejects: a join once both players are there, a
    game start outside Ready, a message outside Started, a payload that
    is no JSON or no Move, and a move that [advance] refuses. *)
Definition isReady (state : State) : bool :=
  match state with
  | Ready _ _ _ => true
  | _ => false
  end.

Definition isStarted (state : State) : bool :=
  match state with
  | Started _ _ _ _ _ => true
  | _ => false
  end.

Inductive Rejected : Action -> State -> Prop :=
| RejectedJoin player state :
    isReady state || isStarted state = true ->
    Rejected (PlayerJoined player) state
| RejectedGameStarted game gameId state :
    isReady state = false ->
    Rejected (GameStarted game gameId) state
| RejectedNotStarted playerPiece data state :
    isStarted state = false ->
    Rejected (MessageReceived playerPiece data) state
| RejectedParse playerPiece data state :
    JSON_parse (toString data) = None ->
    Rejected (MessageReceived playerPiece data) state
| RejectedDecode playerPiece data state u errors :
    JSON_parse (toString data) = Some u ->
    decode moveCodec u = inl errors ->
    Rejected (MessageReceived playerPiece data) state
| RejectedAdvance playerPiece data playerX playerO game gameId d u mv e :
    JSON_parse (toString data) = Some u ->
    decode moveCodec u = inr mv ->
    advance game playerPiece mv = inl e ->
    Rejected (MessageReceived playerPiece data) (Started playerX playerO game gameId d).

End Server.

(** ** Vocabulary of the properties *)

(** The capacity invariant of a row and of a board. *)
Definition rowWithinCapacity (r : Row) : Prop := (numPieces r <= MaxRowPieces)%nat.

Definition boardWithinCapacity (board : Board) : Prop :=
  forall rowIndex, rowWithinCapacity (getRow board rowIndex).

(** The four directions of a run, as the change of (row, column) per step. *)
Inductive Direction : Type := Rightward | Downward | DownRight | DownLeft.

Definition di (d : Direction) : Z :=
  match d with
  | Rightward => 0
  | Downward | DownRight | DownLeft => 1
  end.

Definition dj (d : Direction) : Z :=
  match d with
  | Rightward | DownRight => 1
  | Downward => 0
  | DownLeft => -1
  end.

(** The occupant of cell (i, j) of the 7x7 grid; [None] for an empty cell
    and for every position outside the 7x7 square. *)
Definition cellAt (g : Grid) (i j : Z) : option Piece :=
  if ((0 <=? i) && (i <? 7) && (0 <=? j) && (j <? 7))%Z
  then
    match nth_error g (Z.to_nat i) with
    | Some cells =>
        match nth_error cells (Z.to_nat j) with
        | Some cell => cell
        | None => None
        end
    | None => None
    end
  else None.

(** Four consecutive cells from (i, j) in direction [d], all holding [p]. *)
Definition runOf (g : Grid) (p : Piece) (d : Direction) (i j : Z) : Prop :=
  forall k, (0 <= k < 4)%Z -> cellAt g (i + k * di d) (j + k * dj d) = Some p.

Definition fourInARowOf (g : Grid) (p : Piece) : Prop :=
  exists d i j, runOf g p d i j.

Definition fourInARow (g : Grid) : Prop :=
  exists p, fourInARowOf g p.


Definition runOfb (g : Grid) (p : Piece) (d : Direction) (i j : Z) : bool :=
  forallb
    (fun k =>
       match cellAt g (i + k * di d) (j + k * dj d) with
       | Some q => piece_eqb q p
       | None => false
       end)
    [0; 1; 2; 3]%Z.


(** The chain that [chainPieces] builds from one starting coordinate. *)
Definition nextCoord (mv : CoordMove) (c : Coord) : Coord :=
  {| ci := movei mv (ci c); cj := movej mv (cj c) |}.

Definition holds (g : Grid) (p : Piece) (c : Coord) : bool :=
  match pieceAt g c with
  | Some q => piece_eqb q p
  | None => false
  end.

Definition chainFrom (g : Grid) (mv : CoordMove) (c : Coord) (p : Piece) : option (list Coord) :=
  let c1 := nextCoord mv c in
  let c2 := nextCoord mv c1 in
  let c3 := nextCoord mv c2 in
  if holds g p c1 && holds g p c2 && holds g p c3 then Some [c; c1; c2; c3] else None.

(** [findFirstMap] over a callback that always answers. *)
Fixpoint firstSome {A B} (f : A -> option B) (xs : list A) : option B :=
  match xs with
  | [] => None
  | a :: rest =>
      match f a with
      | Some b => Some b
      | None => firstSome f rest
      end
  end.

(** A sequence of insertions into one row, stopping at the first failure. *)
Fixpoint addPieces (moves : list (Piece * RowSide)) (r : Row) : Either RowFullError Row :=
  match moves with
  | [] => inr r
  | (piece, sd) :: rest => either_chain (addPieces rest) (addPiece piece sd r)
  end.

(** A sequence of moves played from a game, stopping at the first failure. *)
Fixpoint play (game : Game) (moves : list (Piece * Move)) : Either AdvanceError Game :=
  match moves with
  | [] => inr game
  | (piece, mv) :: rest => either_chain (fun g => play g rest) (advance game piece mv)
  end.

(** The move and the starting ranges the detector uses per direction. *)
Definition moveOf (d : Direction) : CoordMove :=
  match d with
  | Rightward => {| movei := fun i => i; movej := fun j => (j + 1)%Z |}
  | Downward => {| movei := fun i => (i + 1)%Z; movej := fun j => j |}
  | DownRight => {| movei := fun i => (i + 1)%Z; movej := fun j => (j + 1)%Z |}
  | DownLeft => {| movei := fun i => (i + 1)%Z; movej := fun j => (j - 1)%Z |}
  end.

Definition startRows (d : Direction) : list Z :=
  match d with
  | Rightward => range 0 6
  | _ => range 0 3
  end.

Definition startColumns (d : Direction) : list Z :=
  match d with
  | Rightward | DownRight => range 0 3
  | Downward => range 0 6
  | DownLeft => range 3 6
  end.

(** A starting coordinate that holds [p] and is followed by three more. *)
Definition startsRun (g : Grid) (mv : CoordMove) (p : Piece) (c : Coord) : Prop :=
  pieceAt g c = Some p /\
  holds g p (nextCoord mv c) = true /\
  holds g p (nextCoord mv (nextCoord mv c)) = true /\
  holds g p (nextCoord mv (nextCoord mv (nextCoord mv c))) = true.

(** The position of a row in [rowIndexes], which is its row of the grid. *)
Definition rowNumber (rowIndex : RowIndex) : nat :=
  match rowIndex with
  | Row1 => 0 | Row2 => 1 | Row3 => 2 | Row4 => 3 | Row5 => 4 | Row6 => 5 | Row7 => 6
  end.

(** The cell of column [j] that the layout of a rendered row prescribes:
    the left sequence in stored order, then empty cells, then the right
    sequence in stored order, flush with the last column. *)
Definition layoutCell (r : Row) (j : nat) : option Piece :=
  if j <? length (left r) then nth_error (left r) j
  else if j <? MaxRowPieces - length (right r) then None
  else nth_error (right r) (j - (MaxRowPieces - length (right r))).

(** A play from the initial game in which the second player's pieces are
    pushed into a column by the first player's insertions. *)
Definition pushMoves : list (Piece * Move) :=
  [(X, mkMove Row7 SideRight); (O, mkMove Row1 SideLeft);
   (X, mkMove Row7 SideRight); (O, mkMove Row1 SideLeft);
   (X, mkMove Row6 SideRight); (O, mkMove Row2 SideLeft);
   (X, mkMove Row2 SideLeft); (O, mkMove Row3 SideLeft);
   (X, mkMove Row3 SideLeft); (O, mkMove Row4 SideLeft)].

Definition pushBoardBefore : Board :=
  {| row1 := mkRow [O; O] []; row2 := mkRow [X; O] []; row3 := mkRow [X; O] [];
     row4 := mkRow [O] []; row5 := emptyRow; row6 := mkRow [] [X];
     row7 := mkRow [] [X; X] |}.

Definition pushBoardAfter : Board :=
  setRow pushBoardBefore Row4 (mkRow [X; O] []).

(** The spec's example of three in a row: row1 = A, A, A from the left. *)
Definition threeInARowBoard : Board :=
  mkBoard (mkRow [X; X; X] []) emptyRow emptyRow emptyRow emptyRow emptyRow emptyRow.

Arguments Empty {WebSocket Database} db.
Arguments PlayerJoined {WebSocket RawData} player.
Arguments PlayerLeft {WebSocket RawData} playerPiece.
Arguments GameStarted {WebSocket RawData} game gameId.
Arguments MessageReceived {WebSocket RawData} playerPiece data.
Arguments logError {WebSocket} error.
Arguments logDebug {WebSocket} message.
Arguments broadcast {WebSocket} message.
Arguments startGame {WebSocket}.
Arguments saveMove {WebSocket} gameId move piece.

(** The effects that write to a socket when they run. *)
Definition isNotification {WebSocket : Type} (effect : Effect WebSocket) : bool :=
  match effect with
  | send _ _ | broadcast _ => true
  | _ => false
  end.

(** A runtime to evaluate the reducer on: sockets and the database are
    numbered, raw data is its text, and the stand-in for [JSON.parse] knows
    the two payloads below and throws on every other text. *)
Definition demoParse (text : string) : option Json :=
  (if String.eqb text "row1 left"
   then Some (JObject [("row", JString "row1"); ("side", JString "left")])
   else if String.eqb text "row9 left"
   then Some (JObject [("row", JString "row9"); ("side", JString "left")])
   else None)%string.

Definition demoUpdate : Action nat string -> State nat nat -> State nat nat * list (Effect nat) :=
  update (fun data : string => data) demoParse (fun _ => "invalid"%string).

(** A Playing game whose first row is at capacity, with no run of four. *)
Definition fullRowBoard : Board :=
  mkBoard (mkRow [X; O; X; O] [X; O; X]) emptyRow emptyRow emptyRow emptyRow emptyRow emptyRow.

(** Seven insertions into one row, from both sides. *)
Definition sevenInsertions : list (Piece * RowSide) :=
  [(X, SideLeft); (O, SideRight); (X, SideLeft); (O, SideRight);
   (X, SideRight); (O, SideLeft); (X, SideLeft)].

(** The spec's example of a win: row1 = A, A, A, A from the left. *)
Definition fourInARowBoard : Board :=
  mkBoard (mkRow [X; X; X; X] []) emptyRow emptyRow emptyRow emptyRow emptyRow emptyRow.

(** The spec's diagonal example, as a grid: A at (0,0), (1,1), (2,2), (3,3). *)
Definition diagonalGrid : Grid :=
  map (fun i => map (fun j => if Nat.eqb i j && Nat.ltb i 4 then Some X else None) (seq 0 7))
    (seq 0 7).

(** ** Counting pieces *)

(** The rows of a board, in the order of [rowIndexes]. *)
Definition boardRows (board : Board) : list Row := map (getRow board) rowIndexes.

Definition totalPieces (board : Board) : nat :=
  list_sum (map numPieces (boardRows board)).

(** [game.board] *)
Definition boardOf (game : Game) : Board :=
  match game with
  | Playing board _ => board
  | Over board _ => board
  end.

(** The cells of the 7x7 square, 49 in all. *)
Definition boardCapacity : nat := 7 * MaxRowPieces.

(** A board with all 49 cells taken and no four in a row. *)
Definition fullBoard : Board :=
  let a := mkRow [X; X; O; O] [X; X; O] in
  let b := mkRow [O; O; X] [X; O; O; X] in
  mkBoard a a a b a b b.

(** The piece that makes move number [k] (from 0) when [first] starts. *)
Definition turnOf (first : Piece) (k : nat) : Piece :=
  if Nat.even k then first else nextPiece first.

(** ** Sessions *)

(** The sockets a session state holds. *)
Definition players {WebSocket Database : Type} (state : State WebSocket Database)
    : list WebSocket :=
  match state with
  | Empty _ => []
  | WaitingForOpponent playerX _ => [playerX]
  | Ready playerX playerO _ => [playerX; playerO]
  | Started playerX playerO _ _ _ => [playerX; playerO]
  end.

(** The value of the payload the client sends for a move,
    [JSON.stringify({ row, side })]. *)
Definition encodeMove (mv : Move) : Json :=
  JObject [("row"%string, JString (showRowIndex (row mv)));
           ("side"%string, JString (showRowSide (side mv)))].

(** The state after a sequence of actions, each dispatched in turn. *)
Definition updates {WebSocket Database RawData : Type}
    (toString : RawData -> string) (JSON_parse : string -> option Json)
    (failure : Errors -> string)
    (actions : list (Action WebSocket RawData)) (state : State WebSocket Database)
    : State WebSocket Database :=
  fold_left (fun s action => fst (update toString JSON_parse failure action s)) actions state.

Definition isMessageReceived {WebSocket RawData : Type} (action : Action WebSocket RawData)
    : bool :=
  match action with
  | MessageReceived _ _ => true
  | _ => false
  end.

(** ** The client reducer (client/src/Game.tsx)

    The client's [State], [Action] and [update]; their names carry the
    prefix Client here, the server's reducer having taken the plain ones. *)

Section Client.

(** The browser's socket. *)
Variable BrowserSocket : Type.

Inductive ClientState : Type :=
| Disconnected
| Waiting (piece : Piece)
| ClientConnected (ws : BrowserSocket) (game : Game) (piece : Piece).

Definition initState : ClientState := Disconnected.

Record ClientAction : Type := mkClientAction {
  actionWs : BrowserSocket;
  actionMessage : Message
}.

Definition clientUpdate (state : ClientState) (action : ClientAction) : ClientState :=
  match actionMessage action with
  | Connected piece => Waiting piece
  | OpponentLeft => Disconnected
  | GameUpdate game =>
      match state with
      | Disconnected => state
      | Waiting piece => ClientConnected (actionWs action) game piece
      | ClientConnected _ _ piece => ClientConnected (actionWs action) game piece
      end
  | Error _ => state
  end.

(** [state.piece], where the state has one. *)
Definition clientPiece (state : ClientState) : option Piece :=
  match state with
  | Disconnected => None
  | Waiting piece => Some piece
  | ClientConnected _ _ piece => Some piece
  end.

(** The messages that carry a game or an error text. *)
Definition keepsConnection (action : ClientAction) : bool :=
  match actionMessage action with
  | GameUpdate _ | Error _ => true
  | _ => false
  end.

End Client.

Arguments Disconnected {BrowserSocket}.
Arguments Waiting {BrowserSocket} piece.

(** The grid row on which the client puts the buttons of a row. *)
Definition rowIndexNumber (rowIndex : RowIndex) : nat :=
  match rowIndex with
  | Row1 => 1 | Row2 => 2 | Row3 => 3 | Row4 => 4 | Row5 => 5 | Row6 => 6 | Row7 => 7
  end.

(** ** The message codecs (shared/src/codecs.ts, lines 1 to 68)

    Messages carry arrays, so their payloads are read as values with
    arrays: a string, an array, a plain object, or anything else. A decoder
    answers [None] where io-ts answers a Left of validation errors. *)

#[warnings="-register-all"]
Inductive JsonValue : Type :=
| VString (s : string)
| VArray (items : list JsonValue)
| VObject (fields : list (string * JsonValue))
| VOther.

(** [a[k]] on a parsed object: [None] is [undefined]. *)
Fixpoint getValue (k : string) (fields : list (string * JsonValue)) : option JsonValue :=
  match fields with
  | [] => None
  | (k', v) :: rest => if String.eqb k k' then Some v else getValue k rest
  end.

(** [t.literal(name)] *)
Definition isLiteral (name : string) (u : option JsonValue) : bool :=
  match u with
  | Some (VString s) => String.eqb s name
  | _ => false
  end.

(** [pieceCodec = t.union([t.literal(X), t.literal(O)])] *)
Definition decodePiece (u : option JsonValue) : option Piece :=
  if isLiteral "X" u then Some X
  else if isLiteral "O" u then Some O
  else None.

(** [t.array(codec)]: an array all of whose items decode. *)
Fixpoint decodeItems {A} (codec : option JsonValue -> option A) (items : list JsonValue)
    : option (list A) :=
  match items with
  | [] => Some []
  | item :: rest =>
      match codec (Some item), decodeItems codec rest with
      | Some a, Some others => Some (a :: others)
      | _, _ => None
      end
  end.

Definition decodeArray {A} (codec : option JsonValue -> option A) (u : option JsonValue)
    : option (list A) :=
  match u with
  | Some (VArray items) => decodeItems codec items
  | _ => None
  end.

(** [rowCodec = t.type({ left: t.array(pieceCodec), right: t.array(pieceCodec) })] *)
Definition decodeRow (u : option JsonValue) : option Row :=
  match u with
  | Some (VObject fields) =>
      match decodeArray decodePiece (getValue "left" fields),
            decodeArray decodePiece (getValue "right" fields) with
      | Some l, Some r => Some (mkRow l r)
      | _, _ => None
      end
  | _ => None
  end.

(** [boardCodec = t.type({ row1: rowCodec, ..., row7: rowCodec })] *)
Definition decodeBoard (u : option JsonValue) : option Board :=
  match u with
  | Some (VObject fields) =>
      match decodeRow (getValue "row1" fields), decodeRow (getValue "row2" fields),
            decodeRow (getValue "row3" fields), decodeRow (getValue "row4" fields),
            decodeRow (getValue "row5" fields), decodeRow (getValue "row6" fields),
            decodeRow (getValue "row7" fields) with
      | Some r1, Some r2, Some r3, Some r4, Some r5, Some r6, Some r7 =>
          Some (mkBoard r1 r2 r3 r4 r5 r6 r7)
      | _, _, _, _, _, _, _ => None
      end
  | _ => None
  end.

(** [gameCodec]: the union of the Playing and the Over shape, tried in
    this order. *)
Definition decodeGame (u : option JsonValue) : option Game :=
  match u with
  | Some (VObject fields) =>
      match (if isLiteral "Playing" (getValue "tag" fields)
             then match decodeBoard (getValue "board" fields),
                        decodePiece (getValue "playingPiece" fields) with
                  | Some board, Some playingPiece => Some (Playing board playingPiece)
                  | _, _ => None
                  end
             else None) with
      | Some game => Some game
      | None =>
          if isLiteral "Over" (getValue "tag" fields)
          then match decodeBoard (getValue "board" fields),
                     decodePiece (getValue "winner" fields) with
               | Some board, Some winner => Some (Over board winner)
               | _, _ => None
               end
          else None
      end
  | _ => None
  end.

(** [messageCodec]: the union of the four message shapes, tried in the
    order Error, Connected, OpponentLeft, GameUpdate. *)
Definition decodeMessage (u : option JsonValue) : option Message :=
  match u with
  | Some (VObject fields) =>
      let tag := getValue "tag" fields in
      match (if isLiteral "Error" tag
             then match getValue "message" fields with
                  | Some (VString text) => Some (Error text)
                  | _ => None
                  end
             else None) with
      | Some message => Some message
      | None =>
          match (if isLiteral "Connected" tag
                 then option_map Connected (decodePiece (getValue "piece" fields))
                 else None) with
          | Some message => Some message
          | None =>
              if isLiteral "OpponentLeft" tag then Some OpponentLeft
              else if isLiteral "GameUpdate" tag
              then option_map GameUpdate (decodeGame (getValue "game" fields))
              else None
          end
      end
  | _ => None
  end.

(** The values [JSON.parse] gives back for what [JSON.stringify] writes. *)
Definition encodePiece (piece : Piece) : JsonValue := VString (showPiece piece).

Definition encodeRow (r : Row) : JsonValue :=
  VObject [("left"%string, VArray (map encodePiece (left r)));
           ("right"%string, VArray (map encodePiece (right r)))].

Definition encodeBoard (board : Board) : JsonValue :=
  VObject (map (fun rowIndex => (showRowIndex rowIndex, encodeRow (getRow board rowIndex)))
             rowIndexes).

Definition encodeGame (game : Game) : JsonValue :=
  match game with
  | Playing board playingPiece =>
      VObject [("tag"%string, VString "Playing"); ("board"%string, encodeBoard board);
               ("playingPiece"%string, encodePiece playingPiece)]
  | Over board winner =>
      VObject [("tag"%string, VString "Over"); ("board"%string, encodeBoard board);
               ("winner"%string, encodePiece winner)]
  end.

Definition encodeMessage (message : Message) : JsonValue :=
  match message with
  | Error text => VObject [("tag"%string, VString "Error"); ("message"%string, VString text)]
  | Connected piece =>
      VObject [("tag"%string, VString "Connected"); ("piece"%string, encodePiece piece)]
  | OpponentLeft => VObject [("tag"%string, VString "OpponentLeft")]
  | GameUpdate game =>
      VObject [("tag"%string, VString "GameUpdate"); ("game"%string, encodeGame game)]
  end.

(** [message.tag] *)
Definition messageTag (message : Message) : string :=
  match message with
  | Error _ => "Error"
  | Connected _ => "Connected"
  | OpponentLeft => "OpponentLeft"
  | GameUpdate _ => "GameUpdate"
  end.


(** * Properties *)

(** ** The win detector *)

Section WinDetector.

Variable g : Grid.

Lemma chainPieces_chainFrom (fuel : nat) (mv : CoordMove) (c : Coord) (p : Piece) :
  (chainFuel <= fuel)%nat ->
  chainPieces g fuel mv c p [c] = Done (chainFrom g mv c p).
Proof.
  unfold chainFuel. intros Hfuel.
  destruct fuel as [|[|[|[|fuel]]]]; try lia.
  unfold chainFrom, holds, nextCoord. cbn -[pieceAt].
  destruct (pieceAt g _) as [q1|]; cbn -[pieceAt]; [|reflexivity].
  destruct (piece_eqb q1 p); cbn -[pieceAt]; [|reflexivity].
  destruct (pieceAt g _) as [q2|]; cbn -[pieceAt]; [|reflexivity].
  destruct (piece_eqb q2 p); cbn -[pieceAt]; [|reflexivity].
  destruct (pieceAt g _) as [q3|]; cbn -[pieceAt]; [|reflexivity].
  destruct (piece_eqb q3 p); reflexivity.
Qed.

Lemma findFirstMap_firstSome {A B} (f : A -> Budget (option B)) (h : A -> option B)
    (xs : list A) :
  (forall a, In a xs -> f a = Done (h a)) ->
  findFirstMap f xs = Done (firstSome h xs).
Proof.
  induction xs as [|a rest IH]; intros Hf; [reflexivity|].
  cbn. rewrite (Hf a (or_introl eq_refl)).
  destruct (h a); [reflexivity|].
  apply IH. intros b Hb. apply Hf. now right.
Qed.

Lemma firstSome_isSome {A B} (h : A -> option B) (xs : list A) :
  option_isSome (firstSome h xs) = true <->
  exists a, In a xs /\ option_isSome (h a) = true.
Proof.
  induction xs as [|a rest IH]; cbn.
  - split; [discriminate|]. intros (a & [] & _).
  - destruct (h a) eqn:Ha; cbn.
    + split; [|reflexivity]. intros _. exists a. rewrite Ha. now split; [left|].
    + rewrite IH. split.
      * intros (b & Hb & Hh). exists b. now split; [right|].
      * intros (b & [<-|Hb] & Hh); [rewrite Ha in Hh; discriminate|]. now exists b.
Qed.

Lemma in_filterMap {A B} (f : A -> option B) (xs : list A) (b : B) :
  In b (filterMap f xs) <-> exists a, In a xs /\ f a = Some b.
Proof.
  induction xs as [|a rest IH]; cbn.
  - split; [intros []|intros (a & [] & _)].
  - destruct (f a) eqn:Ha; cbn; rewrite IH; split.
    + intros [<-|(a' & Hin & Hf)]; [exists a; auto|exists a'; auto].
    + intros (a' & [<-|Hin] & Hf); [left; congruence|right; eauto].
    + intros (a' & Hin & Hf); eauto.
    + intros (a' & [<-|Hin] & Hf); [congruence|eauto].
Qed.

Lemma in_comprehension {A B C} (xs : list A) (ys : list B) (f : A -> B -> C) (c : C) :
  In c (comprehension xs ys f) <-> exists a b, In a xs /\ In b ys /\ c = f a b.
Proof.
  unfold comprehension. rewrite in_flat_map. split.
  - intros (a & Ha & Hc). apply in_map_iff in Hc as (b & <- & Hb). eauto.
  - intros (a & b & Ha & Hb & ->). exists a. split; [assumption|]. now apply in_map.
Qed.

Lemma chainFrom_isSome (mv : CoordMove) (c : Coord) (p : Piece) :
  option_isSome (chainFrom g mv c p) = true <->
  holds g p (nextCoord mv c) = true /\
  holds g p (nextCoord mv (nextCoord mv c)) = true /\
  holds g p (nextCoord mv (nextCoord mv (nextCoord mv c))) = true.
Proof.
  unfold chainFrom.
  destruct (holds g p (nextCoord mv c)), (holds g p (nextCoord mv (nextCoord mv c))),
    (holds g p (nextCoord mv (nextCoord mv (nextCoord mv c)))); cbn; intuition congruence.
Qed.

Lemma checkDirection_spec (fuel : nat) (mv : CoordMove) (is_ js_ : list Z) :
  (chainFuel <= fuel)%nat ->
  exists r, checkDirection g fuel mv is_ js_ = Done r /\
    (option_isSome r = true <->
     exists i j p, In i is_ /\ In j js_ /\ startsRun g mv p (mkCoord i j)).
Proof.
  intros Hfuel. unfold checkDirection.
  eexists. split.
  - apply findFirstMap_firstSome with (h := fun cp => chainFrom g mv (fst cp) (snd cp)).
    intros [c p] _. cbn. now apply chainPieces_chainFrom.
  - rewrite firstSome_isSome. split.
    + intros ([c p] & Hin & Hsome). cbn in Hsome.
      apply in_filterMap in Hin as (c' & Hc' & Hp).
      apply in_comprehension in Hc' as (i & j & Hi & Hj & ->).
      destruct (pieceAt g _) as [q|] eqn:Hq; [|discriminate].
      cbn in Hp. injection Hp as <- <-.
      exists i, j, q. repeat split; try assumption; now apply chainFrom_isSome in Hsome.
    + intros (i & j & p & Hi & Hj & Hp & Hrest).
      exists (mkCoord i j, p). split.
      * apply in_filterMap. exists (mkCoord i j). split.
        -- apply in_comprehension. eauto.
        -- now rewrite Hp.
      * cbn. now apply chainFrom_isSome.
Qed.

End WinDetector.

Lemma in_range (a b i : Z) :
  (a <= b)%Z -> In i (range a b) <-> (a <= i <= b)%Z.
Proof.
  intros Hab. unfold range.
  destruct (Z.leb_spec a b); [|lia].
  rewrite in_map_iff. split.
  - intros (k & <- & Hk). apply in_seq in Hk. lia.
  - intros Hi. exists (Z.to_nat (i - a)). split; [lia|]. apply in_seq. lia.
Qed.

Lemma lookup_nth_error {A} (i : Z) (xs : list A) :
  (0 <= i)%Z -> lookup i xs = nth_error xs (Z.to_nat i).
Proof.
  intros Hi. unfold lookup.
  destruct (Z.ltb_spec i 0); [lia|]. cbn.
  destruct (Z.leb_spec (Z.of_nat (length xs)) i); [|reflexivity].
  symmetry. apply nth_error_None. lia.
Qed.

Lemma piece_eqb_eq (p q : Piece) : piece_eqb p q = true <-> p = q.
Proof. destruct p, q; cbn; intuition congruence. Qed.

Lemma holds_pieceAt (g : Grid) (p : Piece) (c : Coord) :
  holds g p c = true <-> pieceAt g c = Some p.
Proof.
  unfold holds. destruct (pieceAt g c) as [q|]; [|intuition congruence].
  rewrite piece_eqb_eq. intuition congruence.
Qed.

Lemma cellAt_pieceAt (g : Grid) (i j : Z) (p : Piece) :
  cellAt g i j = Some p <->
  (0 <= i < 7)%Z /\ (0 <= j < 7)%Z /\ pieceAt g (mkCoord i j) = Some p.
Proof.
  unfold cellAt, pieceAt. cbn [ci cj].
  destruct (Z.leb_spec 0 i), (Z.ltb_spec i 7), (Z.leb_spec 0 j), (Z.ltb_spec j 7);
    cbn [andb]; try (split; [discriminate|lia]).
  rewrite (lookup_nth_error g) by assumption.
  destruct (nth_error g (Z.to_nat i)) as [cells|]; cbn [option_chain].
  - rewrite (lookup_nth_error cells) by assumption.
    destruct (nth_error cells (Z.to_nat j)); cbn [option_chain]; intuition (lia || congruence).
  - intuition (lia || congruence).
Qed.

Lemma run_cells (g : Grid) (p : Piece) (d : Direction) (i j : Z) :
  runOf g p d i j <->
  cellAt g i j = Some p /\
  cellAt g (i + di d) (j + dj d) = Some p /\
  cellAt g (i + di d + di d) (j + dj d + dj d) = Some p /\
  cellAt g (i + di d + di d + di d) (j + dj d + dj d + dj d) = Some p.
Proof.
  unfold runOf. split.
  - intros H. repeat split.
    + rewrite <- (H 0%Z) by lia. f_equal; lia.
    + rewrite <- (H 1%Z) by lia. f_equal; lia.
    + rewrite <- (H 2%Z) by lia. f_equal; lia.
    + rewrite <- (H 3%Z) by lia. f_equal; lia.
  - intros (H0 & H1 & H2 & H3) k Hk.
    assert (k = 0 \/ k = 1 \/ k = 2 \/ k = 3)%Z as [-> | [-> | [-> | ->]]] by lia;
      [rewrite <- H0|rewrite <- H1|rewrite <- H2|rewrite <- H3]; f_equal; lia.
Qed.

Lemma startsRun_runOf (g : Grid) (p : Piece) (d : Direction) (i j : Z) :
  In i (startRows d) /\ In j (startColumns d) /\ startsRun g (moveOf d) p (mkCoord i j) <->
  runOf g p d i j.
Proof.
  rewrite run_cells. unfold startsRun. rewrite !holds_pieceAt, !cellAt_pieceAt.
  destruct d; unfold startRows, startColumns, moveOf, nextCoord, di, dj;
    cbn [movei movej ci cj]; rewrite !in_range by lia;
    rewrite ?Z.add_0_r; unfold Z.sub; cbn [Z.opp].
  all: intuition lia.
Qed.

Lemma direction_spec (g : Grid) (d : Direction) (fuel : nat) :
  (chainFuel <= fuel)%nat ->
  exists r,
    checkDirection g fuel (moveOf d) (startRows d) (startColumns d) = Done r /\
    (option_isSome r = true <-> exists p i j, runOf g p d i j).
Proof.
  intros Hfuel.
  destruct (checkDirection_spec g (moveOf d) (startRows d) (startColumns d) Hfuel)
    as (r & Hr & Hiff).
  exists r. split; [assumption|]. rewrite Hiff. split.
  - intros (i & j & p & Hi & Hj & Hrun). exists p, i, j. now apply startsRun_runOf.
  - intros (p & i & j & Hrun). apply startsRun_runOf in Hrun as (Hi & Hj & Hrun).
    now exists i, j, p.
Qed.

Lemma connectedFourGrid_spec (g : Grid) (fuel : nat) :
  (chainFuel <= fuel)%nat ->
  exists b, connectedFourGrid g fuel = Done b /\ (b = true <-> fourInARow g).
Proof.
  intros Hfuel. unfold connectedFourGrid, checkRows, checkColumns, checkRightDiagonal,
    checkLeftDiagonal.
  destruct (direction_spec g Rightward Hfuel) as (r1 & E1 & H1).
  destruct (direction_spec g Downward Hfuel) as (r2 & E2 & H2).
  destruct (direction_spec g DownRight Hfuel) as (r3 & E3 & H3).
  destruct (direction_spec g DownLeft Hfuel) as (r4 & E4 & H4).
  cbn [moveOf startRows startColumns] in E1, E2, E3, E4.
  rewrite E1, E2, E3, E4. cbn [budget_map].
  assert (Hfour : fourInARow g <->
            option_isSome r1 = true \/ option_isSome r2 = true \/
            option_isSome r3 = true \/ option_isSome r4 = true).
  { rewrite H1, H2, H3, H4. unfold fourInARow, fourInARowOf. split.
    - intros (p & [] & i & j & Hrun); eauto 10.
    - intros [(p & i & j & Hrun)|[(p & i & j & Hrun)|[(p & i & j & Hrun)|(p & i & j & Hrun)]]];
        eauto 10. }
  destruct (option_isSome r1), (option_isSome r2), (option_isSome r3), (option_isSome r4);
    cbn [orElse]; eexists; (split; [reflexivity|]); rewrite Hfour; intuition congruence.
Qed.

Lemma connectedFourFuel_enough (board : Board) (fuel : nat) :
  (chainFuel <= fuel)%nat ->
  connectedFourFuel fuel board = Done (connectedFour board).
Proof.
  intros Hfuel. unfold connectedFour, connectedFourFuel.
  destruct (connectedFourGrid_spec (toGrid board) Hfuel) as (b & Eb & Hb).
  destruct (connectedFourGrid_spec (toGrid board) (le_n chainFuel)) as (b' & Eb' & Hb').
  rewrite Eb, Eb'. f_equal.
  destruct b, b'; try reflexivity; intuition congruence.
Qed.

Lemma connectedFour_spec (board : Board) :
  connectedFour board = true <-> fourInARow (toGrid board).
Proof.
  unfold connectedFour, connectedFourFuel.
  destruct (connectedFourGrid_spec (toGrid board) (le_n chainFuel)) as (b & Eb & Hb).
  now rewrite Eb.
Qed.

(** C1. The win detector answers true exactly when four consecutive cells
    of the 7x7 rendered grid, rightward, downward or along one of the two
    diagonals, hold the same piece; without such a run (three in a row at
    most) it answers false. It answers on every board: four calls of
    [chainPieces] per starting coordinate are enough, and a larger budget
    changes nothing. *)
Theorem connectedFour_iff_fourInARow (board : Board) :
  (connectedFour board = true <-> fourInARow (toGrid board)) /\
  (~ fourInARow (toGrid board) -> connectedFour board = false) /\
  (forall fuel, (chainFuel <= fuel)%nat ->
                connectedFourFuel fuel board = Done (connectedFour board)).
Proof.
  split; [apply connectedFour_spec|]. split.
  - intros Hno. destruct (connectedFour board) eqn:Hwin; [|reflexivity].
    exfalso. apply Hno. now apply connectedFour_spec.
  - intros fuel. apply connectedFourFuel_enough.
Qed.

Lemma runOfb_runOf (g : Grid) (p : Piece) (d : Direction) (i j : Z) :
  runOfb g p d i j = true <-> runOf g p d i j.
Proof.
  unfold runOfb, runOf. rewrite forallb_forall. split.
  - intros H k Hk. specialize (H k).
    destruct (cellAt g _ _) as [q|].
    + f_equal. apply piece_eqb_eq, H. cbn. lia.
    + discriminate H. cbn. lia.
  - intros H k Hk. rewrite H by (cbn in Hk; lia). now apply piece_eqb_eq.
Qed.


(** ** The game engine *)

Lemma getRow_setRow_same (board : Board) (rowIndex : RowIndex) (newRow : Row) :
  getRow (setRow board rowIndex newRow) rowIndex = newRow.
Proof. destruct rowIndex; reflexivity. Qed.

Lemma getRow_setRow_other (board : Board) (rowIndex other : RowIndex) (newRow : Row) :
  other <> rowIndex ->
  getRow (setRow board rowIndex newRow) other = getRow board other.
Proof. destruct rowIndex, other; intros H; try reflexivity; congruence. Qed.

Lemma board_ext (b1 b2 : Board) :
  (forall rowIndex, getRow b1 rowIndex = getRow b2 rowIndex) -> b1 = b2.
Proof.
  intros H. destruct b1, b2.
  pose proof (H Row1). pose proof (H Row2). pose proof (H Row3). pose proof (H Row4).
  pose proof (H Row5). pose proof (H Row6). pose proof (H Row7).
  cbn in *. congruence.
Qed.

Lemma piece_eqb_refl (p : Piece) : piece_eqb p p = true.
Proof. now destruct p. Qed.

Lemma piece_eqb_neq (p q : Piece) : p <> q -> piece_eqb p q = false.
Proof. destruct p, q; intros H; try reflexivity; congruence. Qed.

Lemma addPiece_full_iff (piece : Piece) (sd : RowSide) (r : Row) :
  addPiece piece sd r = inl mkRowFullError <-> (MaxRowPieces <= numPieces r)%nat.
Proof.
  unfold addPiece.
  destruct sd; destruct (Nat.ltb_spec (numPieces r) MaxRowPieces);
    split; intros H'; try reflexivity; try discriminate; lia.
Qed.

Lemma addPiece_inr (piece : Piece) (sd : RowSide) (r r' : Row) :
  addPiece piece sd r = inr r' ->
  (numPieces r < MaxRowPieces)%nat /\
  r' = match sd with
       | SideLeft => {| left := piece :: left r; right := right r |}
       | SideRight => {| left := left r; right := right r ++ [piece] |}
       end.
Proof.
  unfold addPiece.
  destruct sd; destruct (Nat.ltb_spec (numPieces r) MaxRowPieces); intros H';
    try discriminate; injection H' as <-; auto.
Qed.




(** C3. On a Playing game and its playing piece, when the insertion into
    the target row succeeds, [advance] answers a game on the old board with
    that one row replaced by the insertion result and the six others kept:
    Over with the moving piece as winner when the detector fires on the new
    board, otherwise Playing with the other piece to move (O after X, X
    after O). *)
Theorem advance_success (board : Board) (piece : Piece) (mv : Move) (newRow : Row) :
  addPiece piece (side mv) (getRow board (row mv)) = inr newRow ->
  let newBoard := setRow board (row mv) newRow in
  getRow newBoard (row mv) = newRow /\
  (forall other, other <> row mv -> getRow newBoard other = getRow board other) /\
  advance (Playing board piece) piece mv =
    inr (if connectedFour newBoard
         then Over newBoard piece
         else Playing newBoard (match piece with X => O | O => X end)).
Proof.
  intros Hadd newBoard. split; [apply getRow_setRow_same|].
  split; [intros other; apply getRow_setRow_other|].
  unfold advance. rewrite piece_eqb_refl, Hadd. cbn. fold newBoard.
  destruct (connectedFour newBoard); [reflexivity|]. now destruct piece.
Qed.

(** The three outcomes on concrete games: X moves and O is to move, O moves
    and X is to move, X moves and the game is Over with winner X. *)
Lemma advance_success_witness :
  (addPiece X SideRight emptyRow = inr (mkRow [] [X]) /\
   advance initGame X (mkMove Row3 SideRight)
   = inr (Playing
            (mkBoard emptyRow emptyRow (mkRow [] [X]) emptyRow emptyRow emptyRow emptyRow)
            O)) /\
  (addPiece O SideLeft emptyRow = inr (mkRow [O] []) /\
   advance
     (Playing (mkBoard emptyRow emptyRow (mkRow [] [X]) emptyRow emptyRow emptyRow emptyRow) O)
     O (mkMove Row1 SideLeft)
   = inr (Playing
            (mkBoard (mkRow [O] []) emptyRow (mkRow [] [X]) emptyRow emptyRow emptyRow emptyRow)
            X)) /\
  (addPiece X SideLeft (mkRow [O] []) = inr (mkRow [X; O] []) /\
   advance (Playing pushBoardBefore X) X (mkMove Row4 SideLeft) = inr (Over pushBoardAfter X)).
Proof.
  split; [|split]; (split; [reflexivity|]).
  - apply (@advance_success
             (mkBoard emptyRow emptyRow emptyRow emptyRow emptyRow emptyRow emptyRow)
             X (mkMove Row3 SideRight) (mkRow [] [X])).
    reflexivity.
  - apply (@advance_success
             (mkBoard emptyRow emptyRow (mkRow [] [X]) emptyRow emptyRow emptyRow emptyRow)
             O (mkMove Row1 SideLeft) (mkRow [O] [])).
    reflexivity.
  - apply (@advance_success pushBoardBefore X (mkMove Row4 SideLeft) (mkRow [X; O] [])).
    reflexivity.
Defined.

(** C4. [advance] fails in exactly three cases, each with its own error:
    on an Over game with GameOverError; on a Playing game and a piece other
    than the playing piece with IncorrectPieceError{expected, actual}; on a
    Playing game, the playing piece and a target row at capacity with the
    RowFullError of the insertion. *)
Theorem advance_fails_exactly :
  (forall board winner piece mv,
      advance (Over board winner) piece mv = inl GameOverError) /\
  (forall board playingPiece piece mv,
      piece <> playingPiece ->
      advance (Playing board playingPiece) piece mv
      = inl (IncorrectPieceError playingPiece piece)) /\
  (forall board playingPiece mv,
      (MaxRowPieces <= numPieces (getRow board (row mv)))%nat ->
      advance (Playing board playingPiece) playingPiece mv = inl (RowFull mkRowFullError)) /\
  (forall game piece mv e,
      advance game piece mv = inl e ->
      (exists board winner, game = Over board winner /\ e = GameOverError) \/
      (exists board playingPiece,
          game = Playing board playingPiece /\ piece <> playingPiece /\
          e = IncorrectPieceError playingPiece piece) \/
      (exists board,
          game = Playing board piece /\
          (MaxRowPieces <= numPieces (getRow board (row mv)))%nat /\
          addPiece piece (side mv) (getRow board (row mv)) = inl mkRowFullError /\
          e = RowFull mkRowFullError)).
Proof.
  split; [reflexivity|]. split; [|split].
  - intros board playingPiece piece mv Hne. cbn.
    now rewrite (piece_eqb_neq Hne).
  - intros board playingPiece mv Hfull. cbn. rewrite piece_eqb_refl.
    apply (addPiece_full_iff playingPiece (side mv)) in Hfull. now rewrite Hfull.
  - intros [board playingPiece|board winner] piece mv e; cbn.
    + destruct (piece_eqb piece playingPiece) eqn:Hp.
      * apply piece_eqb_eq in Hp. subst playingPiece.
        destruct (addPiece _ _ _) as [[]|newRow] eqn:Hadd; cbn; [|discriminate].
        intros H. injection H as <-. right. right. exists board.
        repeat split; try assumption. now apply (addPiece_full_iff piece (side mv)).
      * intros H. injection H as <-. right. left. exists board, playingPiece.
        repeat split. intros ->. now rewrite piece_eqb_refl in Hp.
    + intros H. injection H as <-. left. now exists board, winner.
Qed.

(** ** Rows and the rendered grid *)

Lemma addPiece_numPieces (piece : Piece) (sd : RowSide) (r r' : Row) :
  addPiece piece sd r = inr r' -> numPieces r' = S (numPieces r).
Proof.
  intros H. apply addPiece_inr in H as (_ & ->).
  destruct sd; unfold numPieces; cbn [left right length]; [reflexivity|].
  rewrite length_app. cbn. lia.
Qed.

Lemma addPiece_succeeds (piece : Piece) (sd : RowSide) (r : Row) :
  (numPieces r < MaxRowPieces)%nat -> exists r', addPiece piece sd r = inr r'.
Proof.
  intros Hlt. unfold addPiece.
  destruct sd; destruct (Nat.ltb_spec (numPieces r) MaxRowPieces); try lia; eauto.
Qed.

Lemma addPieces_app (ms1 ms2 : list (Piece * RowSide)) (r : Row) :
  addPieces (ms1 ++ ms2) r = either_chain (addPieces ms2) (addPieces ms1 r).
Proof.
  revert r. induction ms1 as [|[piece sd] ms1 IH]; intros r; [reflexivity|].
  cbn. destruct (addPiece piece sd r) as [e|r1]; [reflexivity|]. cbn. apply IH.
Qed.

Lemma addPieces_within (ms : list (Piece * RowSide)) (r : Row) :
  (numPieces r + length ms <= MaxRowPieces)%nat ->
  exists r', addPieces ms r = inr r' /\ numPieces r' = (numPieces r + length ms)%nat.
Proof.
  revert r. induction ms as [|[piece sd] ms IH]; intros r Hle; cbn in *.
  - exists r. split; [reflexivity|lia].
  - destruct (@addPiece_succeeds piece sd r) as (r1 & Hr1); [lia|].
    rewrite Hr1. cbn. pose proof (addPiece_numPieces _ _ _ Hr1) as Hn.
    destruct (IH r1) as (r' & Hr' & Hn'); [lia|].
    exists r'. split; [assumption|lia].
Qed.

Lemma addPieces_one_too_many (ms : list (Piece * RowSide)) (r : Row) :
  (numPieces r + length ms = S MaxRowPieces)%nat -> ms <> [] ->
  addPieces ms r = inl mkRowFullError.
Proof.
  intros Hlen Hne.
  destruct (exists_last Hne) as (front & [piece sd] & ->).
  rewrite length_app in Hlen. cbn in Hlen.
  destruct (@addPieces_within front r) as (r' & Hr' & Hn'); [lia|].
  rewrite addPieces_app, Hr'. cbn.
  destruct (addPiece piece sd r') as [[]|r''] eqn:Hadd; [reflexivity|].
  apply addPiece_inr in Hadd as (Hlt & _). lia.
Qed.

(** C5. An insertion fails with RowFullError exactly when the row already
    holds seven pieces over both sides (seven or more, for a row value
    beyond the capacity invariant); so of any insertions into an empty row,
    from either side, the first seven succeed and the eighth fails. *)
Theorem addPiece_row_capacity :
  (forall piece sd r,
      addPiece piece sd r = inl mkRowFullError <-> (MaxRowPieces <= numPieces r)%nat) /\
  (forall piece sd r,
      rowWithinCapacity r ->
      (addPiece piece sd r = inl mkRowFullError <-> numPieces r = 7%nat)) /\
  (forall ms,
      (length ms <= 7)%nat ->
      exists r, addPieces ms emptyRow = inr r /\ numPieces r = length ms) /\
  (forall ms m,
      length ms = 7%nat ->
      exists r, addPieces ms emptyRow = inr r /\
                addPiece (fst m) (snd m) r = inl mkRowFullError /\
                addPieces (ms ++ [m]) emptyRow = inl mkRowFullError).
Proof.
  split; [apply addPiece_full_iff|]. split; [|split].
  - intros piece sd r Hcap. rewrite addPiece_full_iff.
    unfold rowWithinCapacity, MaxRowPieces in *. lia.
  - intros ms Hlen. destruct (@addPieces_within ms emptyRow) as (r & Hr & Hn).
    + cbn. unfold MaxRowPieces. lia.
    + exists r. split; [assumption|]. cbn in Hn. exact Hn.
  - intros ms m Hlen. destruct (@addPieces_within ms emptyRow) as (r & Hr & Hn).
    + cbn. unfold MaxRowPieces. lia.
    + exists r. cbn in Hn. split; [assumption|]. split.
      * apply addPiece_full_iff. unfold MaxRowPieces. lia.
      * apply addPieces_one_too_many.
        -- rewrite length_app. cbn. unfold MaxRowPieces. lia.
        -- now destruct ms.
Qed.

Lemma toGridRow_length (r : Row) :
  rowWithinCapacity r -> length (toGridRow r) = MaxRowPieces.
Proof.
  unfold rowWithinCapacity, toGridRow, replicate, numPieces. intros Hcap.
  rewrite !length_app, !length_map, repeat_length. lia.
Qed.

Lemma toGridRow_cell (r : Row) (j : nat) :
  rowWithinCapacity r -> (j < MaxRowPieces)%nat ->
  nth_error (toGridRow r) j = Some (layoutCell r j).
Proof.
  unfold rowWithinCapacity, toGridRow, replicate, numPieces, layoutCell. intros Hcap Hj.
  destruct (Nat.ltb_spec j (length (left r))) as [Hl|Hl].
  - rewrite nth_error_app1 by (rewrite length_map; lia).
    rewrite nth_error_map. destruct (nth_error (left r) j) eqn:E; [reflexivity|].
    apply nth_error_None in E. lia.
  - rewrite nth_error_app2 by (rewrite length_map; lia). rewrite length_map.
    destruct (Nat.ltb_spec j (MaxRowPieces - length (right r))) as [Hr|Hr].
    + rewrite nth_error_app1 by (rewrite repeat_length; lia).
      rewrite nth_error_repeat by lia. reflexivity.
    + rewrite nth_error_app2 by (rewrite repeat_length; lia). rewrite repeat_length.
      rewrite nth_error_map.
      replace (j - length (left r) - (MaxRowPieces - (length (left r) + length (right r))))%nat
        with (j - (MaxRowPieces - length (right r)))%nat by lia.
      destruct (nth_error (right r) _) eqn:E; [reflexivity|].
      apply nth_error_None in E. lia.
Qed.

Lemma toGrid_row (board : Board) (rowIndex : RowIndex) :
  nth_error (toGrid board) (rowNumber rowIndex) = Some (toGridRow (getRow board rowIndex)).
Proof. destruct rowIndex; reflexivity. Qed.

(** C6. A successful left insertion puts the new piece in front of the
    left sequence, a successful right insertion puts it at the end of the
    right sequence; and the grid of a board within capacity has 7 rows of 7
    cells, each row being the left sequence in stored order from column 0,
    then empty cells, then the right sequence in stored order up to the last
    column. *)
Theorem insertion_order_and_grid_layout :
  (forall piece r r',
      addPiece piece SideLeft r = inr r' ->
      left r' = piece :: left r /\ right r' = right r) /\
  (forall piece r r',
      addPiece piece SideRight r = inr r' ->
      right r' = right r ++ [piece] /\ left r' = left r) /\
  (forall board,
      boardWithinCapacity board ->
      length (toGrid board) = 7%nat /\
      forall rowIndex,
        exists cells,
          nth_error (toGrid board) (rowNumber rowIndex) = Some cells /\
          length cells = 7%nat /\
          cells = map Some (left (getRow board rowIndex))
                  ++ repeat None (7 - length (left (getRow board rowIndex))
                                    - length (right (getRow board rowIndex)))
                  ++ map Some (right (getRow board rowIndex)) /\
          forall j, (j < 7)%nat ->
                    nth_error cells j = Some (layoutCell (getRow board rowIndex) j)).
Proof.
  split; [|split].
  - intros piece r r' H. apply addPiece_inr in H as (_ & ->). now split.
  - intros piece r r' H. apply addPiece_inr in H as (_ & ->). now split.
  - intros board Hcap. split; [reflexivity|].
    intros rowIndex. exists (toGridRow (getRow board rowIndex)).
    split; [apply toGrid_row|]. split; [now apply toGridRow_length|]. split.
    + unfold toGridRow, replicate, numPieces, MaxRowPieces.
      now rewrite Nat.sub_add_distr.
    + intros j Hj. now apply toGridRow_cell.
Qed.

(** ** The session reducer *)

Section SessionFacts.

Context {WebSocket Database RawData : Type}.
Variable toString : RawData -> string.
Variable JSON_parse : string -> option Json.
Variable failure : Errors -> string.
Variable isOpen : WebSocket -> bool.

Local Abbreviation State' := (State WebSocket Database).
Local Abbreviation update' := (@update WebSocket Database RawData toString JSON_parse failure).
Local Abbreviation dispatchSent' :=
  (@dispatchSent WebSocket Database RawData toString JSON_parse failure isOpen).

(** C7. Matchmaking: the first join on Empty gives WaitingForOpponent with
    the peer as X and notifies it of X first; the second join gives Ready,
    notifies the new peer of O and then requests the creation of a game;
    GameStarted on Ready gives Started with that game and id, subscribes
    both peers and broadcasts the GameUpdate, which reaches both. *)
Theorem matchmaking_sequence (p1 p2 : WebSocket) (d : Database) (game : Game) (gameId : Z) :
  update' (PlayerJoined p1) (Empty d)
  = (WaitingForOpponent p1 d,
     [send (Connected X) p1;
      logDebug "First player joined. Waiting for the second player..."]) /\
  update' (PlayerJoined p2) (WaitingForOpponent p1 d)
  = (Ready p1 p2 d,
     [send (Connected O) p2; startGame;
      logDebug "Second player joined. Starting game..."]) /\
  update' (GameStarted game gameId) (Ready p1 p2 d)
  = (Started p1 p2 game gameId d,
     [subscribe X p1; subscribe O p2; broadcast (GameUpdate game)]) /\
  dispatchSent' (PlayerJoined p1) (Empty d) = sendIfOpen isOpen p1 (Connected X) /\
  dispatchSent' (PlayerJoined p2) (WaitingForOpponent p1 d)
  = sendIfOpen isOpen p2 (Connected O) /\
  dispatchSent' (GameStarted game gameId) (Ready p1 p2 d)
  = sendIfOpen isOpen p1 (GameUpdate game) ++ sendIfOpen isOpen p2 (GameUpdate game).
Proof.
  repeat split; unfold dispatchSent; cbn; now rewrite ?app_nil_r.
Qed.

(** C8 (as amended). PlayerLeft on a Started state gives Empty and two
    effects, a debug log and then the one notification, OpponentLeft to the
    peer that did not leave; on every other state it gives Empty and no
    effect. *)
Theorem player_left (playerPiece : Piece) (state : State') :
  (forall playerX playerO game gameId d,
      state = Started playerX playerO game gameId d ->
      let other := match playerPiece with X => playerO | O => playerX end in
      update' (PlayerLeft playerPiece) state
      = (Empty d,
         [logDebug ("Player " ++ showPiece playerPiece ++ " left the game")%string;
          send OpponentLeft other]) /\
      filter isNotification (snd (update' (PlayerLeft playerPiece) state))
      = [send OpponentLeft other] /\
      dispatchSent' (PlayerLeft playerPiece) state = sendIfOpen isOpen other OpponentLeft) /\
  (isStarted state = false ->
   update' (PlayerLeft playerPiece) state = (Empty (db state), [])).
Proof.
  split.
  - intros playerX playerO game gameId d -> other. subst other.
    unfold dispatchSent. destruct playerPiece; cbn; now rewrite ?app_nil_r.
  - destruct state; cbn; intros H; try reflexivity; discriminate.
Qed.

Lemma rejected_log_only (action : Action WebSocket RawData) (state : State') (e : string) :
  update' action state = (state, [logError e]) ->
  dispatchSent' action state = [].
Proof. unfold dispatchSent. now intros ->. Qed.

Lemma update_rejected (action : Action WebSocket RawData) (state : State') :
  Rejected toString JSON_parse action state ->
  exists e, update' action state = (state, [logError e]).
Proof.
  intros [player st H|game gameId st H|playerPiece data st H|playerPiece data st H
         |playerPiece data st u errors Hu H
         |playerPiece data playerX playerO game gameId d u mv e Hu Hmv He]; cbn.
  - destruct st; try discriminate H; cbn; eauto.
  - destruct st; try discriminate H; cbn; eauto.
  - unfold parseJson. destruct (JSON_parse (toString data)) as [u|]; cbn; [|eauto].
    destruct (decode moveCodec u) as [err|mv]; cbn; [eauto|].
    destruct st; try discriminate H; cbn; eauto.
  - unfold parseJson. rewrite H. cbn. eauto.
  - unfold parseJson. rewrite Hu. cbn. rewrite H. cbn. eauto.
  - unfold parseJson. rewrite Hu. cbn. rewrite Hmv. cbn. rewrite He. cbn. eauto.
Qed.

End SessionFacts.

(** *** Decoding *)

Lemma literals_inr {A} (names : list (string * A)) (u : option Json) (c : list string) (a : A) :
  literals names u c = inr a <->
  exists s na, u = Some (JString s) /\
               find (fun na => String.eqb s (fst na)) names = Some na /\ snd na = a.
Proof.
  unfold literals. split.
  - destruct u as [[s|fields|]|]; try discriminate.
    destruct (find _ names) as [na|] eqn:Hfind; [|discriminate].
    intros H. injection H as <-. now exists s, na.
  - intros (s & na & -> & -> & <-). reflexivity.
Qed.

Lemma rowIndexCodec_inr (u : option Json) (c : list string) (r : RowIndex) :
  rowIndexCodec u c = inr r <-> u = Some (JString (showRowIndex r)).
Proof.
  unfold rowIndexCodec. rewrite literals_inr. split.
  - intros (s & na & -> & Hfind & <-). cbn in Hfind.
    repeat match type of Hfind with
      | (if String.eqb ?a ?b then _ else _) = _ =>
          destruct (String.eqb_spec a b);
          [subst; injection Hfind as <-; reflexivity|]
      end.
    discriminate.
  - intros ->. exists (showRowIndex r), (showRowIndex r, r). now destruct r.
Qed.

Lemma rowSideCodec_inr (u : option Json) (c : list string) (sd : RowSide) :
  rowSideCodec u c = inr sd <-> u = Some (JString (showRowSide sd)).
Proof.
  unfold rowSideCodec. rewrite literals_inr. split.
  - intros (s & na & -> & Hfind & <-). cbn in Hfind.
    repeat match type of Hfind with
      | (if String.eqb ?a ?b then _ else _) = _ =>
          destruct (String.eqb_spec a b);
          [subst; injection Hfind as <-; reflexivity|]
      end.
    discriminate.
  - intros ->. exists (showRowSide sd), (showRowSide sd, sd). now destruct sd.
Qed.

Lemma pieceCodec_inr (u : option Json) (c : list string) (piece : Piece) :
  pieceCodec u c = inr piece <-> u = Some (JString (showPiece piece)).
Proof.
  unfold pieceCodec, literals. split.
  - destruct u as [[s|fields|]|]; try discriminate. cbn.
    destruct (String.eqb_spec s "X") as [->|HX]; cbn.
    + now intros [= <-].
    + destruct (String.eqb_spec s "O") as [->|HO]; cbn; [|discriminate].
      now intros [= <-].
  - intros ->. now destruct piece.
Qed.

Lemma decode_move_inr (u : Json) (mv : Move) :
  decode moveCodec u = inr mv <->
  exists fields,
    u = JObject fields /\
    getField "row" fields = Some (JString (showRowIndex (row mv))) /\
    getField "side" fields = Some (JString (showRowSide (side mv))).
Proof.
  unfold decode, moveCodec. split.
  - destruct u as [s|fields|]; try discriminate.
    destruct (rowIndexCodec _ _) as [e1|r] eqn:Hr;
      destruct (rowSideCodec _ _) as [e2|s] eqn:Hs; try discriminate.
    cbn. intros H. injection H as <-. exists fields.
    apply rowIndexCodec_inr in Hr. apply rowSideCodec_inr in Hs. now repeat split.
  - intros (fields & -> & Hr & Hs).
    apply (rowIndexCodec_inr _ ([""%string] ++ ["row"%string])) in Hr.
    apply (rowSideCodec_inr _ ([""%string] ++ ["side"%string])) in Hs.
    rewrite Hr, Hs. now destruct mv.
Qed.

Lemma decode_inl_structured {A} (codec : Decoder A) (u : Json) (e : ApiError) :
  decode codec u = inl e -> exists errors, e = DecodeError errors.
Proof.
  unfold decode. destruct (codec _ _) as [errors|a]; cbn; [|discriminate].
  intros H. injection H as <-. now exists errors.
Qed.

Section RejectedActions.

Context {WebSocket Database RawData : Type}.
Variable toString : RawData -> string.
Variable JSON_parse : string -> option Json.
Variable failure : Errors -> string.

(** C9. A rejected action is atomic and log-only: [update] gives back the
    input state with a single error log, and running it writes to no
    socket. Rejected are a join on Ready or Started, a game start outside
    Ready, a message outside Started, a payload that fails JSON parsing or
    Move decoding, and a move that [advance] refuses. Decoding is total and
    fails with a structured error unless the payload is an object whose row
    and side are among the literal names; a piece decodes only from its
    literal name. *)
Theorem rejected_actions_log_only :
  (forall (action : Action WebSocket RawData) (state : State WebSocket Database),
      Rejected toString JSON_parse action state ->
      exists e,
        update toString JSON_parse failure action state = (state, [logError e]) /\
        forall isOpen,
          dispatchSent toString JSON_parse failure isOpen action state = []) /\
  (forall u,
      (exists mv, decode moveCodec u = inr mv) \/
      (exists errors, decode moveCodec u = inl (DecodeError errors))) /\
  (forall u mv,
      decode moveCodec u = inr mv <->
      exists fields,
        u = JObject fields /\
        getField "row" fields = Some (JString (showRowIndex (row mv))) /\
        getField "side" fields = Some (JString (showRowSide (side mv)))) /\
  (forall u piece,
      decode pieceCodec u = inr piece <-> u = JString (showPiece piece)).
Proof.
  split; [|split; [|split]].
  - intros action state Hrej.
    destruct (update_rejected failure Hrej) as (e & He).
    exists e. split; [assumption|]. intros isOpen. now apply rejected_log_only with (e := e).
  - intros u. destruct (decode moveCodec u) as [e|mv] eqn:Hd; [right|left; eauto].
    destruct (decode_inl_structured _ _ Hd) as (errors & ->). eauto.
  - apply decode_move_inr.
  - intros u piece. unfold decode.
    destruct (pieceCodec (Some u) [""%string]) as [e|p] eqn:Hp; cbn.
    + split; [discriminate|]. intros ->.
      assert (H : pieceCodec (Some (JString (showPiece piece))) [""%string] = inr piece)
        by now apply pieceCodec_inr.
      rewrite H in Hp. discriminate.
    + apply pieceCodec_inr in Hp. injection Hp as ->. split.
      * now intros [= ->].
      * intros H. f_equal. destruct p, piece; try reflexivity; discriminate.
Qed.

(** C10. Every transition keeps the database handle of the input state. *)
Theorem update_preserves_db (action : Action WebSocket RawData)
    (state : State WebSocket Database) :
  db (fst (update toString JSON_parse failure action state)) = db state.
Proof.
  destruct action as [player|playerPiece|game gameId|playerPiece data]; cbn.
  - destruct state; reflexivity.
  - destruct state; reflexivity.
  - destruct state; reflexivity.
  - unfold parseJson. destruct (JSON_parse (toString data)) as [u|]; cbn; [|reflexivity].
    destruct (decode moveCodec u) as [e|mv]; cbn; [reflexivity|].
    destruct state as [d|playerX d|playerX playerO d|playerX playerO g gameId d]; cbn;
      try reflexivity.
    destruct (advance g playerPiece mv); reflexivity.
Qed.

End RejectedActions.

(** A message with a row outside the literal names is rejected in a Started
    session: the state stays, one error is logged, nothing is written. *)
Lemma rejected_actions_log_only_witness :
  exists e,
    demoUpdate (MessageReceived X "row9 left"%string) (Started 1 2 initGame 7 0)
    = (Started 1 2 initGame 7 0, [logError e]) /\
    forall isOpen,
      dispatchSent (fun data : string => data) demoParse (fun _ => "invalid"%string) isOpen
        (MessageReceived X "row9 left"%string) (Started 1 2 initGame 7 0) = [].
Proof.
  apply (proj1 (@rejected_actions_log_only nat nat string
                  (fun data => data) demoParse (fun _ => "invalid"%string))).
  eapply RejectedDecode; reflexivity.
Defined.

(** PlayerLeft on a Started state returns two effects, not one: the debug
    log comes before the notification. *)
Lemma player_left_two_effects :
  demoUpdate (PlayerLeft X) (Started 1 2 initGame 7 0)
  = (Empty 0, [logDebug "Player X left the game"; send OpponentLeft 2]) /\
  length (snd (demoUpdate (PlayerLeft X) (Started 1 2 initGame 7 0))) <> 1%nat.
Proof. split; [reflexivity|]. cbn. discriminate. Qed.

(** ** Evaluations on concrete inputs *)

Example row_of_four_wins : connectedFour fourInARowBoard = true.
Proof. reflexivity. Qed.

Example three_in_a_row_no_win :
  connectedFour threeInARowBoard = false /\ ~ fourInARow (toGrid threeInARowBoard).
Proof.
  split; [reflexivity|]. intros H. apply connectedFour_spec in H. discriminate H.
Qed.

Example diagonal_wins :
  connectedFourGrid diagonalGrid chainFuel = Done true /\ runOf diagonalGrid X DownRight 0 0.
Proof. split; [reflexivity|]. apply runOfb_runOf. reflexivity. Qed.

Example too_little_fuel : connectedFourFuel 3 fourInARowBoard = OutOfFuel.
Proof. reflexivity. Qed.

Lemma advance_fails_exactly_witness :
  advance (Playing pushBoardBefore X) O (mkMove Row4 SideLeft) = inl (IncorrectPieceError X O) /\
  advance (Playing fullRowBoard O) O (mkMove Row1 SideRight) = inl (RowFull mkRowFullError).
Proof.
  destruct advance_fails_exactly as (_ & Hpiece & Hfull & _). split.
  - apply Hpiece. discriminate.
  - apply Hfull. cbn. unfold MaxRowPieces. lia.
Defined.

Lemma addPiece_row_capacity_witness :
  exists r,
    addPieces sevenInsertions emptyRow = inr r /\
    addPiece O SideLeft r = inl mkRowFullError /\
    addPieces (sevenInsertions ++ [(O, SideLeft)]) emptyRow = inl mkRowFullError.
Proof.
  destruct addPiece_row_capacity as (_ & _ & _ & Heighth).
  apply (Heighth sevenInsertions (O, SideLeft)). reflexivity.
Defined.

Lemma pushBoardBefore_within_capacity : boardWithinCapacity pushBoardBefore.
Proof.
  intros rowIndex. unfold rowWithinCapacity, MaxRowPieces.
  destruct rowIndex; cbn; lia.
Qed.

Lemma insertion_order_and_grid_layout_witness :
  length (toGrid pushBoardBefore) = 7%nat /\
  forall rowIndex,
    exists cells,
      nth_error (toGrid pushBoardBefore) (rowNumber rowIndex) = Some cells /\
      length cells = 7%nat /\
      cells = map Some (left (getRow pushBoardBefore rowIndex))
              ++ repeat None (7 - length (left (getRow pushBoardBefore rowIndex))
                                - length (right (getRow pushBoardBefore rowIndex)))
              ++ map Some (right (getRow pushBoardBefore rowIndex)) /\
      forall j, (j < 7)%nat ->
                nth_error cells j = Some (layoutCell (getRow pushBoardBefore rowIndex) j).
Proof.
  destruct insertion_order_and_grid_layout as (_ & _ & Hgrid).
  apply Hgrid. exact pushBoardBefore_within_capacity.
Defined.

Lemma player_left_witness :
  demoUpdate (PlayerLeft O) (Started 1 2 initGame 7 0)
  = (Empty 0, [logDebug "Player O left the game"; send OpponentLeft 1]) /\
  demoUpdate (PlayerLeft O) (Ready 1 2 0) = (Empty 0, []).
Proof.
  split.
  - apply (proj1 (@player_left nat nat string (fun data => data) demoParse
                    (fun _ => "invalid"%string) (fun _ => true) O (Started 1 2 initGame 7 0))
             1 2 initGame 7%Z 0 eq_refl).
  - apply (proj2 (@player_left nat nat string (fun data => data) demoParse
                    (fun _ => "invalid"%string) (fun _ => true) O (Ready 1 2 0))).
    reflexivity.
Defined.

(** A valid move in a Started session is applied, saved and broadcast. *)
Example message_applies_move :
  exists g,
    advance initGame X (mkMove Row1 SideLeft) = inr g /\
    demoUpdate (MessageReceived X "row1 left"%string) (Started 1 2 initGame 7 0)
    = (Started 1 2 g 7 0,
       [saveMove 7 (mkMove Row1 SideLeft) X; broadcast (GameUpdate g)]).
Proof. eexists. split; reflexivity. Qed.

(** * Further properties of the sources *)

(** ** Rows under insertion *)

Lemma addPiece_inr_capacity (piece : Piece) (sd : RowSide) (r r' : Row) :
  addPiece piece sd r = inr r' ->
  rowWithinCapacity r' /\ numPieces r' = S (numPieces r).
Proof.
  intros H. pose proof (addPiece_numPieces _ _ _ H) as Hn.
  apply addPiece_inr in H as (Hlt & _).
  unfold rowWithinCapacity. split; [lia|assumption].
Qed.

(** X1. Whatever the row it is given, [addPiece] returns only rows within
    capacity, with exactly one piece more. *)
Theorem addPiece_result_within_capacity (piece : Piece) (sd : RowSide) (r r' : Row) :
  addPiece piece sd r = inr r' ->
  rowWithinCapacity r' /\ numPieces r' = S (numPieces r).
Proof. apply addPiece_inr_capacity. Qed.

Lemma addPiece_result_within_capacity_witness :
  addPiece X SideRight (mkRow [O] [X]) = inr (mkRow [O] [X; X]) /\
  rowWithinCapacity (mkRow [O] [X; X]) /\ numPieces (mkRow [O] [X; X]) = 3%nat.
Proof.
  split; [reflexivity|].
  apply (@addPiece_result_within_capacity X SideRight (mkRow [O] [X]) (mkRow [O] [X; X])).
  reflexivity.
Defined.

(** X2. An insertion pushes: the new piece takes the outermost column of its
    side, the pieces already on that side move one column inward, and the
    other side of the row stays where it is. *)
Theorem addPiece_pushes_inward (piece : Piece) (sd : RowSide) (r r' : Row) :
  addPiece piece sd r = inr r' ->
  match sd with
  | SideLeft =>
      nth_error (toGridRow r') 0 = Some (Some piece) /\
      (forall j, (j < length (left r))%nat ->
                 nth_error (toGridRow r') (S j) = nth_error (toGridRow r) j) /\
      (forall j, (MaxRowPieces - length (right r) <= j < MaxRowPieces)%nat ->
                 nth_error (toGridRow r') j = nth_error (toGridRow r) j)
  | SideRight =>
      nth_error (toGridRow r') (MaxRowPieces - 1) = Some (Some piece) /\
      (forall j, (MaxRowPieces - length (right r) <= j < MaxRowPieces)%nat ->
                 nth_error (toGridRow r') (j - 1) = nth_error (toGridRow r) j) /\
      (forall j, (j < length (left r))%nat ->
                 nth_error (toGridRow r') j = nth_error (toGridRow r) j)
  end.
Proof.
  intros H.
  destruct (addPiece_inr_capacity _ _ _ H) as (Hcap' & Hn').
  apply addPiece_inr in H as (Hlt & ->).
  assert (Hcap : rowWithinCapacity r) by (unfold rowWithinCapacity; lia).
  unfold rowWithinCapacity, numPieces, MaxRowPieces in *.
  destruct sd; cbn [left right length] in *.
  - split; [|split].
    + rewrite toGridRow_cell by (unfold rowWithinCapacity, numPieces, MaxRowPieces; cbn; lia).
      reflexivity.
    + intros j Hj.
      rewrite !toGridRow_cell
        by (unfold rowWithinCapacity, numPieces, MaxRowPieces; cbn; lia).
      f_equal. unfold layoutCell. cbn [left right length].
      destruct (Nat.ltb_spec (S j) (S (length (left r)))); [|lia].
      destruct (Nat.ltb_spec j (length (left r))); [|lia]. reflexivity.
    + intros j Hj.
      rewrite !toGridRow_cell
        by (unfold rowWithinCapacity, numPieces, MaxRowPieces; cbn; lia).
      f_equal. unfold layoutCell, MaxRowPieces. cbn [left right length].
      destruct (Nat.ltb_spec j (S (length (left r)))); [lia|].
      destruct (Nat.ltb_spec j (length (left r))); [lia|].
      destruct (Nat.ltb_spec j (7 - length (right r))); [lia|]. reflexivity.
  - rewrite length_app in *. cbn [length] in *. split; [|split].
    + rewrite toGridRow_cell
        by (unfold rowWithinCapacity, numPieces, MaxRowPieces; cbn; rewrite ?length_app; cbn; lia).
      f_equal. unfold layoutCell, MaxRowPieces. cbn [left right]. rewrite length_app. cbn [length].
      destruct (Nat.ltb_spec (7 - 1) (length (left r))); [lia|].
      destruct (Nat.ltb_spec (7 - 1) (7 - (length (right r) + 1))); [lia|].
      rewrite nth_error_app2 by lia.
      replace (7 - 1 - (7 - (length (right r) + 1)) - length (right r))%nat with 0%nat by lia.
      reflexivity.
    + intros j Hj.
      rewrite !toGridRow_cell
        by (unfold rowWithinCapacity, numPieces, MaxRowPieces; cbn; rewrite ?length_app; cbn; lia).
      f_equal. unfold layoutCell, MaxRowPieces. cbn [left right]. rewrite length_app. cbn [length].
      destruct (Nat.ltb_spec (j - 1) (length (left r))); [lia|].
      destruct (Nat.ltb_spec j (length (left r))); [lia|].
      destruct (Nat.ltb_spec (j - 1) (7 - (length (right r) + 1))); [lia|].
      destruct (Nat.ltb_spec j (7 - length (right r))); [lia|].
      rewrite nth_error_app1 by lia. f_equal. lia.
    + intros j Hj.
      rewrite !toGridRow_cell
        by (unfold rowWithinCapacity, numPieces, MaxRowPieces; cbn; rewrite ?length_app; cbn; lia).
      f_equal. unfold layoutCell. cbn [left right].
      destruct (Nat.ltb_spec j (length (left r))); [|lia]. reflexivity.
Qed.

Lemma addPiece_pushes_inward_witness :
  addPiece X SideLeft (mkRow [O] []) = inr (mkRow [X; O] []) /\
  nth_error (toGridRow (mkRow [X; O] [])) 0 = Some (Some X) /\
  nth_error (toGridRow (mkRow [X; O] [])) 1 = nth_error (toGridRow (mkRow [O] [])) 0.
Proof.
  split; [reflexivity|].
  destruct (@addPiece_pushes_inward X SideLeft (mkRow [O] []) (mkRow [X; O] []) eq_refl)
    as (Hfirst & Hshift & _).
  split; [exact Hfirst|]. apply Hshift. cbn. lia.
Defined.

(** ** Games under [advance] *)

Lemma totalPieces_setRow (board : Board) (rowIndex : RowIndex) (newRow : Row) :
  (totalPieces (setRow board rowIndex newRow) + numPieces (getRow board rowIndex)
   = totalPieces board + numPieces newRow)%nat.
Proof. destruct rowIndex; unfold totalPieces; cbn; lia. Qed.

Lemma totalPieces_bound (board : Board) :
  boardWithinCapacity board -> (totalPieces board <= boardCapacity)%nat.
Proof.
  intros H.
  pose proof (H Row1). pose proof (H Row2). pose proof (H Row3). pose proof (H Row4).
  pose proof (H Row5). pose proof (H Row6). pose proof (H Row7).
  unfold rowWithinCapacity, boardCapacity, MaxRowPieces, totalPieces in *. cbn in *. lia.
Qed.

Lemma advance_inr (game game' : Game) (piece : Piece) (mv : Move) :
  advance game piece mv = inr game' ->
  exists board newRow,
    game = Playing board piece /\
    addPiece piece (side mv) (getRow board (row mv)) = inr newRow /\
    boardOf game' = setRow board (row mv) newRow /\
    game' = (if connectedFour (setRow board (row mv) newRow)
             then Over (setRow board (row mv) newRow) piece
             else Playing (setRow board (row mv) newRow) (nextPiece piece)).
Proof.
  destruct game as [board playingPiece|board winner]; cbn; [|discriminate].
  destruct (piece_eqb piece playingPiece) eqn:Hp; [|discriminate].
  apply piece_eqb_eq in Hp. subst playingPiece.
  destruct (addPiece _ _ _) as [e|newRow] eqn:Hadd; cbn; [discriminate|].
  intros H. injection H as <-. exists board, newRow.
  repeat split; try assumption. now destruct (connectedFour _).
Qed.

Lemma advance_step (game game' : Game) (piece : Piece) (mv : Move) :
  advance game piece mv = inr game' ->
  totalPieces (boardOf game') = S (totalPieces (boardOf game)) /\
  (boardWithinCapacity (boardOf game) -> boardWithinCapacity (boardOf game')).
Proof.
  intros H. apply advance_inr in H as (board & newRow & -> & Hadd & Hb & _).
  rewrite Hb. cbn [boardOf].
  destruct (addPiece_inr_capacity _ _ _ Hadd) as (Hcap & Hn). split.
  - pose proof (totalPieces_setRow board (row mv) newRow). lia.
  - intros Hboard other.
    assert (Hdec : other = row mv \/ other <> row mv) by (destruct other, (row mv); (now left) || (right; discriminate)).
    destruct Hdec as [->|Hne].
    + now rewrite getRow_setRow_same.
    + rewrite getRow_setRow_other by assumption. apply Hboard.
Qed.

(** X3. A successful move puts exactly one more piece on the board and keeps
    the capacity invariant of every row. *)
Theorem advance_adds_one_piece (game game' : Game) (piece : Piece) (mv : Move) :
  advance game piece mv = inr game' ->
  totalPieces (boardOf game') = S (totalPieces (boardOf game)) /\
  (boardWithinCapacity (boardOf game) -> boardWithinCapacity (boardOf game')).
Proof. apply advance_step. Qed.

Lemma advance_adds_one_piece_witness :
  advance initGame X (mkMove Row3 SideRight)
  = inr (Playing (setRow (boardOf initGame) Row3 (mkRow [] [X])) O) /\
  totalPieces (setRow (boardOf initGame) Row3 (mkRow [] [X])) = 1%nat.
Proof.
  split; [reflexivity|].
  apply (@advance_adds_one_piece initGame
           (Playing (setRow (boardOf initGame) Row3 (mkRow [] [X])) O) X
           (mkMove Row3 SideRight)).
  reflexivity.
Defined.

Lemma initGame_within_capacity : boardWithinCapacity (boardOf initGame).
Proof.
  intros rowIndex. unfold rowWithinCapacity, MaxRowPieces. destruct rowIndex; cbn; lia.
Qed.

Lemma play_invariants (moves : list (Piece * Move)) (game game' : Game) :
  play game moves = inr game' ->
  totalPieces (boardOf game') = (totalPieces (boardOf game) + length moves)%nat /\
  (boardWithinCapacity (boardOf game) -> boardWithinCapacity (boardOf game')).
Proof.
  revert game. induction moves as [|[piece mv] rest IH]; intros game; cbn [play length].
  - intros H. injection H as <-. split; [lia|auto].
  - destruct (advance game piece mv) as [e|g1] eqn:Hadv; cbn [either_chain]; [discriminate|].
    intros H. destruct (IH _ H) as (Hn & Hcap).
    destruct (advance_step _ _ _ Hadv) as (Hn1 & Hcap1).
    split; [lia|auto].
Qed.

(** X4. Every game played from the initial game keeps all rows within
    capacity and holds as many pieces as moves were made; so no play from
    the initial game is longer than the 49 cells of the board. *)
Theorem play_from_initGame_bounded (moves : list (Piece * Move)) (game : Game) :
  play initGame moves = inr game ->
  boardWithinCapacity (boardOf game) /\
  totalPieces (boardOf game) = length moves /\
  (length moves <= boardCapacity)%nat.
Proof.
  intros H. destruct (play_invariants _ _ H) as (Hn & Hcap).
  specialize (Hcap initGame_within_capacity).
  assert (Hlen : totalPieces (boardOf game) = length moves) by (rewrite Hn; reflexivity).
  repeat split; try assumption.
  rewrite <- Hlen. now apply totalPieces_bound.
Qed.

Lemma play_from_initGame_bounded_witness :
  play initGame pushMoves = inr (Playing pushBoardBefore X) /\
  boardWithinCapacity pushBoardBefore /\
  totalPieces pushBoardBefore = 10%nat /\ (10 <= boardCapacity)%nat.
Proof.
  split; [reflexivity|].
  apply (@play_from_initGame_bounded pushMoves (Playing pushBoardBefore X)).
  reflexivity.
Defined.

(** X5. The code has no draw: on a board within capacity whose 49 cells are all
    taken, every move of the playing piece fails with RowFullError, and the
    game stays Playing. *)
Theorem full_board_every_move_fails (board : Board) (playingPiece : Piece) (mv : Move) :
  boardWithinCapacity board ->
  totalPieces board = boardCapacity ->
  advance (Playing board playingPiece) playingPiece mv = inl (RowFull mkRowFullError).
Proof.
  intros Hcap Hfull.
  assert (Hrow : forall rowIndex, numPieces (getRow board rowIndex) = MaxRowPieces).
  { pose proof (Hcap Row1). pose proof (Hcap Row2). pose proof (Hcap Row3).
    pose proof (Hcap Row4). pose proof (Hcap Row5). pose proof (Hcap Row6).
    pose proof (Hcap Row7).
    unfold rowWithinCapacity, boardCapacity, MaxRowPieces, totalPieces in *. cbn in *.
    intros []; cbn; lia. }
  cbn. rewrite piece_eqb_refl.
  assert (Hadd : addPiece playingPiece (side mv) (getRow board (row mv)) = inl mkRowFullError).
  { apply addPiece_full_iff. rewrite Hrow. lia. }
  now rewrite Hadd.
Qed.

Lemma full_board_every_move_fails_witness :
  connectedFour fullBoard = false /\
  advance (Playing fullBoard O) O (mkMove Row5 SideLeft) = inl (RowFull mkRowFullError).
Proof.
  split; [reflexivity|].
  apply (@full_board_every_move_fails fullBoard O (mkMove Row5 SideLeft)).
  - intros rowIndex. unfold rowWithinCapacity, MaxRowPieces. destruct rowIndex; cbn; lia.
  - reflexivity.
Defined.

(** X6. Nobody moves twice in a row: after a successful move that leaves the
    game Playing, the other piece is to move and every further move of the
    same piece fails with IncorrectPieceError. *)
Theorem no_second_move_in_a_row (game : Game) (board' : Board) (piece next : Piece)
    (mv mv' : Move) :
  advance game piece mv = inr (Playing board' next) ->
  next = nextPiece piece /\
  advance (Playing board' next) piece mv' = inl (IncorrectPieceError (nextPiece piece) piece).
Proof.
  intros H. apply advance_inr in H as (board & newRow & -> & _ & _ & Hg).
  destruct (connectedFour _); [discriminate|]. injection Hg as -> ->.
  split; [reflexivity|]. cbn. now destruct piece.
Qed.

Lemma no_second_move_in_a_row_witness :
  advance initGame X (mkMove Row3 SideRight)
  = inr (Playing (setRow (boardOf initGame) Row3 (mkRow [] [X])) O) /\
  advance (Playing (setRow (boardOf initGame) Row3 (mkRow [] [X])) O) X (mkMove Row1 SideLeft)
  = inl (IncorrectPieceError O X).
Proof.
  split; [reflexivity|].
  apply (@no_second_move_in_a_row initGame (setRow (boardOf initGame) Row3 (mkRow [] [X]))
           X O (mkMove Row3 SideRight) (mkMove Row1 SideLeft)).
  reflexivity.
Defined.

Lemma play_app (ms1 ms2 : list (Piece * Move)) (game : Game) :
  play game (ms1 ++ ms2) = either_chain (fun g => play g ms2) (play game ms1).
Proof.
  revert game. induction ms1 as [|[piece mv] ms1 IH]; intros game; [reflexivity|].
  cbn. destruct (advance game piece mv) as [e|g1]; [reflexivity|]. cbn. apply IH.
Qed.

(** X7. An Over game is final: every non-empty sequence of moves played from it
    fails with GameOverError, so a play that succeeds was Playing before each
    of its moves. *)
Theorem over_is_final :
  (forall board winner pm rest,
      play (Over board winner) (pm :: rest) = inl GameOverError) /\
  (forall game game' before after,
      play game (before ++ after) = inr game' ->
      after <> [] ->
      exists board playingPiece, play game before = inr (Playing board playingPiece)).
Proof.
  split.
  - intros board winner [piece mv] rest. reflexivity.
  - intros game game' before after H Hne. rewrite play_app in H.
    destruct (play game before) as [e|[board pp|board winner]]; cbn in H.
    + discriminate.
    + eauto.
    + destruct after as [|[piece mv] rest]; [congruence|]. discriminate.
Qed.

Lemma turnOf_next (first : Piece) (k : nat) :
  turnOf (nextPiece first) k = turnOf first (S k).
Proof.
  unfold turnOf. rewrite Nat.even_succ, <- Nat.negb_even.
  destruct (Nat.even k), first; reflexivity.
Qed.

Lemma play_turns (moves : list (Piece * Move)) (board : Board) (first : Piece) (game : Game) :
  play (Playing board first) moves = inr game ->
  (forall k pm, nth_error moves k = Some pm -> fst pm = turnOf first k) /\
  match game with
  | Playing _ playingPiece => playingPiece = turnOf first (length moves)
  | Over _ winner => moves <> [] /\ winner = turnOf first (length moves - 1)
  end.
Proof.
  revert board first. induction moves as [|[piece mv] rest IH]; intros board first; cbn [play].
  - intros H. injection H as <-. split; [|reflexivity].
    intros [|k] pm; discriminate.
  - destruct (advance (Playing board first) piece mv) as [e|g1] eqn:Hadv;
      cbn [either_chain]; [discriminate|].
    apply advance_inr in Hadv as (b0 & newRow & Hb0 & _ & _ & Hg1).
    injection Hb0 as <- <-. intros H.
    destruct (connectedFour _); subst g1.
    + destruct rest as [|[p2 m2] rest]; [|discriminate].
      cbn in H. injection H as <-. split.
      * intros [|[|k]] pm; cbn; try discriminate. now intros [= <-].
      * split; [discriminate|reflexivity].
    + destruct (IH _ _ H) as (Hturns & Hgame). split.
      * intros [|k] pm; cbn [nth_error].
        -- now intros [= <-].
        -- intros Hk. rewrite (Hturns _ _ Hk). apply turnOf_next.
      * destruct game as [b pp|b w].
        -- rewrite Hgame. apply turnOf_next.
        -- destruct Hgame as (Hne & ->). split; [discriminate|].
           rewrite turnOf_next. cbn [length]. f_equal.
           destruct rest; [congruence|cbn; lia].
Qed.

(** X8. In every play from the initial game the pieces alternate, X first: move
    number k (from 0) is made by X when k is even and by O when it is odd;
    the piece to move afterwards is the next in turn, and the winner of a
    play that ends Over is the piece of its last move. *)
Theorem play_alternates (moves : list (Piece * Move)) (game : Game) :
  play initGame moves = inr game ->
  (forall k pm, nth_error moves k = Some pm -> fst pm = turnOf X k) /\
  match game with
  | Playing _ playingPiece => playingPiece = turnOf X (length moves)
  | Over _ winner => moves <> [] /\ winner = turnOf X (length moves - 1)
  end.
Proof. apply play_turns. Qed.

Lemma play_alternates_witness :
  play initGame pushMoves = inr (Playing pushBoardBefore X) /\
  X = turnOf X (length pushMoves).
Proof.
  split; [reflexivity|].
  apply (proj2 (@play_alternates pushMoves (Playing pushBoardBefore X) eq_refl)).
Defined.

Lemma over_is_final_witness :
  exists board playingPiece,
    play initGame (firstn 4 pushMoves) = inr (Playing board playingPiece).
Proof.
  apply (proj2 over_is_final initGame (Playing pushBoardBefore X)
           (firstn 4 pushMoves) (skipn 4 pushMoves)).
  - reflexivity.
  - discriminate.
Defined.

(** ** The chain a direction reports *)

Lemma firstSome_Some {A B} (h : A -> option B) (xs : list A) (b : B) :
  firstSome h xs = Some b -> exists a, In a xs /\ h a = Some b.
Proof.
  induction xs as [|a rest IH]; cbn; [discriminate|].
  destruct (h a) as [b'|] eqn:Ha.
  - intros [= <-]. exists a. auto.
  - intros H. destruct (IH H) as (a' & Hin & Ha'). exists a'. auto.
Qed.

(** X9. When a direction reports a chain, the chain is four coordinates: a
    permitted starting coordinate and the three that follow it in the
    direction of the move, all four holding the same piece. *)
Theorem checkDirection_chain (g : Grid) (fuel : nat) (mv : CoordMove) (is_ js_ : list Z)
    (chain : list Coord) :
  (chainFuel <= fuel)%nat ->
  checkDirection g fuel mv is_ js_ = Done (Some chain) ->
  exists i j p,
    In i is_ /\ In j js_ /\
    chain = [mkCoord i j;
             nextCoord mv (mkCoord i j);
             nextCoord mv (nextCoord mv (mkCoord i j));
             nextCoord mv (nextCoord mv (nextCoord mv (mkCoord i j)))] /\
    forall c, In c chain -> pieceAt g c = Some p.
Proof.
  intros Hfuel. unfold checkDirection.
  rewrite (@findFirstMap_firstSome _ _ _ (fun cp => chainFrom g mv (fst cp) (snd cp))).
  - intros H. injection H as H. apply firstSome_Some in H as ([c p] & Hin & Hchain).
    cbn [fst snd] in Hchain.
    apply in_filterMap in Hin as (c' & Hc' & Hp).
    apply in_comprehension in Hc' as (i & j & Hi & Hj & ->).
    destruct (pieceAt g _) as [q|] eqn:Hq; [|discriminate].
    cbn in Hp. injection Hp as <- <-.
    assert (Hsome : option_isSome (chainFrom g mv (mkCoord i j) q) = true)
      by now rewrite Hchain.
    apply chainFrom_isSome in Hsome as (H1 & H2 & H3).
    unfold chainFrom in Hchain. rewrite H1, H2, H3 in Hchain. cbn in Hchain.
    injection Hchain as <-.
    exists i, j, q. repeat split; try assumption.
    apply holds_pieceAt in H1, H2, H3.
    intros c [<-|[<-|[<-|[<-|[]]]]]; assumption.
  - intros [c p] _. cbn. now apply chainPieces_chainFrom.
Qed.

Lemma checkDirection_chain_witness :
  checkRows (toGrid fourInARowBoard) chainFuel
  = Done (Some [mkCoord 0 0; mkCoord 0 1; mkCoord 0 2; mkCoord 0 3]) /\
  exists i j p,
    In i (range 0 6) /\ In j (range 0 3) /\
    [mkCoord 0 0; mkCoord 0 1; mkCoord 0 2; mkCoord 0 3]
    = [mkCoord i j;
       nextCoord (moveOf Rightward) (mkCoord i j);
       nextCoord (moveOf Rightward) (nextCoord (moveOf Rightward) (mkCoord i j));
       nextCoord (moveOf Rightward)
         (nextCoord (moveOf Rightward) (nextCoord (moveOf Rightward) (mkCoord i j)))] /\
    forall c, In c [mkCoord 0 0; mkCoord 0 1; mkCoord 0 2; mkCoord 0 3] ->
              pieceAt (toGrid fourInARowBoard) c = Some p.
Proof.
  split; [reflexivity|].
  apply (@checkDirection_chain (toGrid fourInARowBoard) chainFuel (moveOf Rightward)
           (range 0 6) (range 0 3)).
  - apply le_n.
  - reflexivity.
Defined.

(** ** Messages in a session *)

(** X10. The payload of a move decodes to that move. *)
Theorem move_roundtrip (mv : Move) : decode moveCodec (encodeMove mv) = inr mv.
Proof.
  apply decode_move_inr. eexists. split; [reflexivity|].
  now destruct mv as [[] []].
Qed.

Section Messages.

Context {WebSocket Database RawData : Type}.
Variable toString : RawData -> string.
Variable JSON_parse : string -> option Json.
Variable failure : Errors -> string.
Variable isOpen : WebSocket -> bool.

Local Abbreviation update' := (@update WebSocket Database RawData toString JSON_parse failure).
Local Abbreviation dispatchSent' :=
  (@dispatchSent WebSocket Database RawData toString JSON_parse failure isOpen).
Local Abbreviation updates' := (@updates WebSocket Database RawData toString JSON_parse failure).

Lemma update_message_cases (playerPiece : Piece) (data : RawData)
    (state : State WebSocket Database) :
  (exists e, update' (MessageReceived playerPiece data) state = (state, [logError e])) \/
  (exists playerX playerO game game' gameId d u mv,
      state = Started playerX playerO game gameId d /\
      JSON_parse (toString data) = Some u /\
      decode moveCodec u = inr mv /\
      advance game playerPiece mv = inr game' /\
      update' (MessageReceived playerPiece data) state
      = (Started playerX playerO game' gameId d,
         [saveMove gameId mv playerPiece; broadcast (GameUpdate game')])).
Proof.
  cbn. unfold parseJson.
  destruct (JSON_parse (toString data)) as [u|] eqn:Hu; cbn; [|eauto].
  destruct (decode moveCodec u) as [e|mv] eqn:Hmv; cbn; [eauto|].
  destruct state as [d|playerX d|playerX playerO d|playerX playerO game gameId d]; cbn;
    eauto.
  destruct (advance game playerPiece mv) as [e|game'] eqn:Hadv; cbn; [eauto|].
  right. exists playerX, playerO, game, game', gameId, d, u, mv. auto 10.
Qed.

(** X11. A message whose payload decodes to a move that [advance] accepts for the
    sender's piece replaces the game of the Started session, keeps the
    players, the game id and the database, saves the move and then
    broadcasts the new game, which is written to both players. *)
Theorem message_applies_the_move (playerPiece : Piece) (data : RawData)
    (playerX playerO : WebSocket) (game game' : Game) (gameId : Z) (d : Database)
    (u : Json) (mv : Move) :
  JSON_parse (toString data) = Some u ->
  decode moveCodec u = inr mv ->
  advance game playerPiece mv = inr game' ->
  update' (MessageReceived playerPiece data) (Started playerX playerO game gameId d)
  = (Started playerX playerO game' gameId d,
     [saveMove gameId mv playerPiece; broadcast (GameUpdate game')]) /\
  dispatchSent' (MessageReceived playerPiece data) (Started playerX playerO game gameId d)
  = sendIfOpen isOpen playerX (GameUpdate game') ++ sendIfOpen isOpen playerO (GameUpdate game').
Proof.
  intros Hu Hmv Hadv. unfold dispatchSent. cbn. unfold parseJson.
  rewrite Hu. cbn. rewrite Hmv. cbn. rewrite Hadv. cbn.
  split; [reflexivity|]. now rewrite app_nil_r.
Qed.

(** X12. A message changes nothing but the game of a Started session, and that
    only into what [advance] returns for the sender's piece; in every other
    case the state is the input state. *)
Theorem message_changes_only_the_game (playerPiece : Piece) (data : RawData)
    (state : State WebSocket Database) :
  fst (update' (MessageReceived playerPiece data) state) = state \/
  exists playerX playerO game game' gameId d mv,
    state = Started playerX playerO game gameId d /\
    advance game playerPiece mv = inr game' /\
    fst (update' (MessageReceived playerPiece data) state)
    = Started playerX playerO game' gameId d.
Proof.
  destruct (update_message_cases playerPiece data state)
    as [(e & ->)|(px & po & g & g' & gid & d & u & mv & -> & _ & _ & Hadv & ->)].
  - now left.
  - right. exists px, po, g, g', gid, d, mv. auto.
Qed.

(** X13. Once the game of a session is Over, no sequence of messages changes the
    session. *)
Theorem over_session_ignores_messages (actions : list (Action WebSocket RawData))
    (playerX playerO : WebSocket) (board : Board) (winner : Piece) (gameId : Z)
    (d : Database) :
  forallb isMessageReceived actions = true ->
  updates' actions (Started playerX playerO (Over board winner) gameId d)
  = Started playerX playerO (Over board winner) gameId d.
Proof.
  induction actions as [|action rest IH]; [reflexivity|].
  cbn [forallb]. intros H. apply andb_prop in H as (Ha & Hrest).
  destruct action as [player|piece|game gid|piece data]; try discriminate Ha.
  unfold updates. cbn [fold_left].
  destruct (update_message_cases piece data
              (Started playerX playerO (Over board winner) gameId d))
    as [(e & ->)|(px & po & g & g' & gid & d' & u & mv & Hst & _ & _ & Hadv & _)].
  - cbn [fst]. now apply IH.
  - injection Hst as <- <- <- <- <-. discriminate Hadv.
Qed.

(** X14. Whatever the action, [dispatch] writes only to open sockets, only to a
    player of the input state or to the socket that joins, and never an
    Error message. *)
Theorem dispatch_writes_only_to_open_players (action : Action WebSocket RawData)
    (state : State WebSocket Database) (ws : WebSocket) (message : Message) :
  In (ws, message) (dispatchSent' action state) ->
  isOpen ws = true /\
  (In ws (players state) \/ action = PlayerJoined ws) /\
  (forall text, message <> Error text).
Proof.
  assert (Hsend : forall w m, In (ws, message) (sendIfOpen isOpen w m) ->
                              isOpen ws = true /\ w = ws /\ m = message).
  { intros w m. unfold sendIfOpen. destruct (isOpen w) eqn:Hw; [|intros []].
    intros [[= <- <-]|[]]. auto. }
  destruct action as [player|piece|game gid|piece data].
  - unfold dispatchSent.
    destruct state as [d|px d|px po d|px po g gid d]; cbn; rewrite ?app_nil_r;
      try (intros []);
      intros H; apply Hsend in H as (Ho & -> & <-); (split; [assumption|]);
      (split; [now right|discriminate]).
  - unfold dispatchSent.
    destruct state as [d|px d|px po d|px po g gid d]; cbn; rewrite ?app_nil_r;
      try (intros []).
    intros H; apply Hsend in H as (Ho & Hw & <-). split; [assumption|].
    split; [|discriminate]. left. destruct piece; subst ws; cbn; auto.
  - unfold dispatchSent.
    destruct state as [d|px d|px po d|px po g gid' d]; cbn; rewrite ?app_nil_r;
      try (intros []).
    intros H. apply in_app_or in H as [H|H]; apply Hsend in H as (Ho & <- & <-);
      (split; [assumption|]); (split; [cbn; auto|discriminate]).
  - unfold dispatchSent.
    destruct (update_message_cases piece data state)
      as [(e & ->)|(px & po & g & g' & gid & d & u & mv & -> & _ & _ & _ & ->)].
    + intros [].
    + cbn. rewrite app_nil_r. intros H.
      apply in_app_or in H as [H|H]; apply Hsend in H as (Ho & <- & <-);
        (split; [assumption|]); (split; [cbn; auto|discriminate]).
Qed.

End Messages.

Lemma message_applies_the_move_witness :
  demoParse "row1 left" = Some (encodeMove (mkMove Row1 SideLeft)) /\
  demoUpdate (MessageReceived X "row1 left"%string) (Started 1 2 initGame 7 0)
  = (Started 1 2 (Playing (setRow (boardOf initGame) Row1 (mkRow [X] [])) O) 7 0,
     [saveMove 7 (mkMove Row1 SideLeft) X;
      broadcast (GameUpdate (Playing (setRow (boardOf initGame) Row1 (mkRow [X] [])) O))]).
Proof.
  split; [reflexivity|].
  apply (@message_applies_the_move nat nat string (fun data => data) demoParse
           (fun _ => "invalid"%string) (fun _ => true) X "row1 left"%string 1 2 initGame
           (Playing (setRow (boardOf initGame) Row1 (mkRow [X] [])) O) 7%Z 0
           (encodeMove (mkMove Row1 SideLeft)) (mkMove Row1 SideLeft));
    reflexivity.
Defined.

Lemma over_session_ignores_messages_witness :
  updates (fun data : string => data) demoParse (fun _ => "invalid"%string)
    [MessageReceived O "row1 left"%string; MessageReceived X "row9 left"%string]
    (Started 1 2 (Over pushBoardAfter X) 7 0)
  = Started 1 2 (Over pushBoardAfter X) 7 0.
Proof.
  apply (@over_session_ignores_messages nat nat string (fun data => data) demoParse
           (fun _ => "invalid"%string)
           [MessageReceived O "row1 left"%string; MessageReceived X "row9 left"%string]).
  reflexivity.
Defined.

Lemma dispatch_writes_only_to_open_players_witness :
  (fun ws : nat => Nat.eqb ws 2) 2 = true /\
  (In 2 (players (Started 1 2 initGame 7 0)) \/
   PlayerLeft (WebSocket := nat) (RawData := string) X = PlayerJoined 2) /\
  (forall text, OpponentLeft <> Error text).
Proof.
  apply (@dispatch_writes_only_to_open_players nat nat string (fun data => data) demoParse
           (fun _ => "invalid"%string) (fun ws => Nat.eqb ws 2)
           (PlayerLeft X) (Started 1 2 initGame 7 0) 2 OpponentLeft).
  cbn. now left.
Defined.

(** ** The client *)

Section ClientFacts.

Context {BrowserSocket : Type}.

Lemma clientUpdate_keeps_piece (state : ClientState BrowserSocket)
    (action : ClientAction BrowserSocket) (piece : Piece) :
  clientPiece state = Some piece ->
  keepsConnection action = true ->
  clientPiece (clientUpdate state action) = Some piece.
Proof.
  unfold keepsConnection, clientUpdate.
  destruct (actionMessage action); try discriminate; destruct state; cbn; congruence.
Qed.

(** X15. Once the server has told the client its piece, game updates and error
    messages never change it, however many arrive; and after a game update
    the client shows the game of that update, on the socket it came from. *)
Theorem client_keeps_its_piece (actions : list (ClientAction BrowserSocket))
    (state : ClientState BrowserSocket) (piece : Piece) :
  clientPiece state = Some piece ->
  forallb (@keepsConnection BrowserSocket) actions = true ->
  clientPiece (fold_left (@clientUpdate BrowserSocket) actions state) = Some piece /\
  (forall front ws game,
      actions = front ++ [mkClientAction ws (GameUpdate game)] ->
      fold_left (@clientUpdate BrowserSocket) actions state = ClientConnected ws game piece).
Proof.
  intros Hpiece Hkeep.
  assert (Hinv : forall acts st,
             clientPiece st = Some piece ->
             forallb (@keepsConnection BrowserSocket) acts = true ->
             clientPiece (fold_left (@clientUpdate BrowserSocket) acts st) = Some piece).
  { induction acts as [|a rest IH]; intros st Hst Hacts; [assumption|].
    cbn in Hacts. apply andb_prop in Hacts as (Ha & Hrest).
    cbn [fold_left]. apply IH; [|assumption]. now apply clientUpdate_keeps_piece. }
  split; [now apply Hinv|].
  intros front ws game ->. rewrite fold_left_app. cbn [fold_left].
  rewrite forallb_app in Hkeep. apply andb_prop in Hkeep as (Hfront & _).
  specialize (Hinv front state Hpiece Hfront).
  unfold clientUpdate. cbn [actionMessage actionWs].
  destruct (fold_left _ front state); cbn in Hinv; congruence.
Qed.

End ClientFacts.

Lemma client_keeps_its_piece_witness :
  clientPiece
    (fold_left (@clientUpdate nat)
       [mkClientAction 5 (Error "late"); mkClientAction 5 (GameUpdate initGame)]
       (Waiting O))
  = Some O /\
  (forall front ws game,
      [mkClientAction 5 (Error "late"); mkClientAction 5 (GameUpdate initGame)]
      = front ++ [mkClientAction ws (GameUpdate game)] ->
      fold_left (@clientUpdate nat)
        [mkClientAction 5 (Error "late"); mkClientAction 5 (GameUpdate initGame)]
        (Waiting O)
      = ClientConnected ws game O).
Proof.
  apply (@client_keeps_its_piece nat
           [mkClientAction 5 (Error "late"); mkClientAction 5 (GameUpdate initGame)]
           (Waiting O) O); reflexivity.
Defined.

(** X16. The buttons of a row stand on the grid row where [toGrid] renders its
    cells: grid row i (from 0) is shown on line i + 1, and that is the
    [rowIndexNumber] of the row whose cells it holds. *)
Theorem buttons_align_with_rows (board : Board) (rowIndex : RowIndex) :
  (1 <= rowIndexNumber rowIndex <= 7)%nat /\
  nth_error rowIndexes (rowIndexNumber rowIndex - 1) = Some rowIndex /\
  nth_error (toGrid board) (rowIndexNumber rowIndex - 1)
  = Some (toGridRow (getRow board rowIndex)) /\
  (forall i other, nth_error rowIndexes i = Some other ->
                   (rowIndexNumber other = i + 1)%nat).
Proof.
  split; [destruct rowIndex; cbn; lia|].
  split; [now destruct rowIndex|]. split; [now destruct rowIndex|].
  intros i other H.
  do 7 (destruct i as [|i]; [cbn in H; injection H as <-; reflexivity|]).
  destruct i; discriminate.
Qed.

(** ** The message codecs *)

Lemma decodePiece_encode (piece : Piece) : decodePiece (Some (encodePiece piece)) = Some piece.
Proof. now destruct piece. Qed.

Lemma decodeItems_encode (pieces : list Piece) :
  decodeItems decodePiece (map encodePiece pieces) = Some pieces.
Proof.
  induction pieces as [|piece rest IH]; [reflexivity|].
  cbn [map decodeItems]. now rewrite decodePiece_encode, IH.
Qed.

Lemma decodeRow_encode (r : Row) : decodeRow (Some (encodeRow r)) = Some r.
Proof.
  destruct r as [l rr]. unfold encodeRow, decodeRow. cbn [getValue String.eqb left right].
  cbn -[decodeItems decodePiece encodePiece]. now rewrite !decodeItems_encode.
Qed.

Lemma decodeBoard_encode (board : Board) : decodeBoard (Some (encodeBoard board)) = Some board.
Proof.
  destruct board. unfold encodeBoard, decodeBoard.
  cbn -[decodeRow encodeRow]. now rewrite !decodeRow_encode.
Qed.

Lemma decodeGame_encode (game : Game) : decodeGame (Some (encodeGame game)) = Some game.
Proof.
  destruct game as [board playingPiece|board winner]; unfold encodeGame, decodeGame;
    cbn -[decodeBoard encodeBoard decodePiece encodePiece];
    now rewrite decodeBoard_encode, decodePiece_encode.
Qed.

(** X17. Every message the server can write is read back by the client as the
    same message: decoding the value of its JSON text gives the message,
    whatever board, pieces or error text it carries. *)
Theorem message_roundtrip (message : Message) :
  decodeMessage (Some (encodeMessage message)) = Some message.
Proof.
  destruct message as [text|piece| |game]; unfold encodeMessage, decodeMessage;
    cbn -[decodeGame encodeGame decodePiece encodePiece]; try reflexivity.
  - now rewrite decodePiece_encode.
  - now rewrite decodeGame_encode.
Qed.

Lemma isLiteral_true (name : string) (u : option JsonValue) :
  isLiteral name u = true -> u = Some (VString name).
Proof.
  destruct u as [[s|items|fields|]|]; cbn; try discriminate.
  intros H. apply String.eqb_eq in H. now subst.
Qed.

(** X18. The client accepts as a message only an object whose tag is one of the
    four tags, and reads it as the message of that tag; every other payload
    is refused. *)
Theorem decodeMessage_needs_its_tag (u : option JsonValue) (message : Message) :
  decodeMessage u = Some message ->
  exists fields,
    u = Some (VObject fields) /\
    getValue "tag" fields = Some (VString (messageTag message)).
Proof.
  destruct u as [[s|items|fields|]|]; cbn [decodeMessage]; try discriminate.
  intros H. exists fields. split; [reflexivity|].
  destruct (isLiteral "Error" (getValue "tag" fields)) eqn:He.
  - apply isLiteral_true in He. rewrite He in *. cbn in H.
    destruct (getValue "message" fields) as [[text|?|?|]|]; try discriminate.
    now injection H as <-.
  - destruct (isLiteral "Connected" (getValue "tag" fields)) eqn:Hc.
    + apply isLiteral_true in Hc. rewrite Hc in *. cbn in H.
      destruct (decodePiece (getValue "piece" fields)); cbn in H; [|discriminate].
      now injection H as <-.
    + destruct (isLiteral "OpponentLeft" (getValue "tag" fields)) eqn:Ho.
      * apply isLiteral_true in Ho. rewrite Ho in *. now injection H as <-.
      * destruct (isLiteral "GameUpdate" (getValue "tag" fields)) eqn:Hg; [|discriminate].
        apply isLiteral_true in Hg. rewrite Hg in *.
        destruct (decodeGame (getValue "game" fields)); cbn in H; [|discriminate].
        now injection H as <-.
Qed.

Lemma decodeMessage_needs_its_tag_witness :
  exists fields,
    Some (encodeMessage (Connected O)) = Some (VObject fields) /\
    getValue "tag" fields = Some (VString (messageTag (Connected O))).
Proof.
  apply (@decodeMessage_needs_its_tag (Some (encodeMessage (Connected O))) (Connected O)).
  reflexivity.
Defined.

(** ** Played games and the detector *)

Lemma play_status (moves : list (Piece * Move)) (game game' : Game) :
  play game moves = inr game' ->
  moves <> [] ->
  match game' with
  | Playing board _ => connectedFour board = false
  | Over board _ => connectedFour board = true
  end.
Proof.
  revert game. induction moves as [|[piece mv] rest IH]; intros game H Hne; [congruence|].
  cbn [play] in H.
  destruct (advance game piece mv) as [e|g1] eqn:Hadv; cbn [either_chain] in H;
    [discriminate|].
  destruct rest as [|pm rest'].
  - cbn in H. injection H as <-.
    apply advance_inr in Hadv as (board & newRow & _ & _ & _ & ->).
    now destruct (connectedFour _) eqn:Hwin.
  - apply (IH g1); [assumption|discriminate].
Qed.

(** X19. A game played from the initial game is Over exactly when its board
    shows four in a row: while it is Playing no run of four is on the grid,
    and when it is Over one is. *)
Theorem played_game_status (moves : list (Piece * Move)) (game : Game) :
  play initGame moves = inr game ->
  match game with
  | Playing board _ => ~ fourInARow (toGrid board)
  | Over board _ => fourInARow (toGrid board)
  end.
Proof.
  intros H. destruct moves as [|pm rest].
  - cbn in H. injection H as <-. cbn [initGame].
    intros Hrun. apply connectedFour_spec in Hrun. discriminate Hrun.
  - apply play_status in H; [|discriminate].
    destruct game as [board pp|board w].
    + intros Hrun. apply connectedFour_spec in Hrun. congruence.
    + now apply connectedFour_spec.
Qed.

Lemma played_game_status_witness :
  play initGame (pushMoves ++ [(X, mkMove Row4 SideLeft)]) = inr (Over pushBoardAfter X) /\
  fourInARow (toGrid pushBoardAfter).
Proof.
  split; [reflexivity|].
  apply (@played_game_status (pushMoves ++ [(X, mkMove Row4 SideLeft)])
           (Over pushBoardAfter X)).
  reflexivity.
Defined.
